(** * astdot: serialising a Python syntax tree to Graphviz DOT

    A shallow embedding of [src/astdot.py] (the style builder [make_style],
    the tree walk [_to_dot_from_ast] with its closures [walk_fields] and
    [walk_node], the printer [graph_to_dot] and the default [skip]
    predicate), followed by the properties of it that the specification
    states. *)

From Stdlib Require Import ZArith Ascii String.
From stdpp Require Import base option list sorting strings pretty.

(** ** Python values *)

(** The three kinds of value the walk tells apart: [ast.AST] instances,
    [list]s, and everything else.  A leaf is known to the serializer only
    through [repr] and through the comparison with [None] in [skip], so a
    leaf other than [None] or an [int] is carried as its [repr] text. *)
Inductive leaf : Type :=
| LNone
| LInt (n : Z)
| LOther (text : string).

Local Unset Elimination Schemes.
Inductive pyobj : Type :=
| Leaf (l : leaf)
| PyList (xs : list pyobj)
| PyAST (cls : string) (fields : list (string * pyobj)).
Local Set Elimination Schemes.

(** [repr(value)] for a leaf.  CPython refuses to print an [int] with more
    digits than [sys.get_int_max_str_digits()] and raises [ValueError]
    there; the embedding takes [repr] on the values it is defined on, so
    it describes the runs in which line 103 returns. *)
Definition repr (l : leaf) : string :=
  match l with
  | LNone => "None"
  | LInt n => pretty n
  | LOther text => text
  end.

(** ** Characters and strings *)

Definition dquote : ascii := "034"%char.
Definition newline : ascii := "010"%char.
Definition backslash : ascii := "092"%char.

Definition chr (c : ascii) : string := String c EmptyString.

(** [s.join(parts)] *)
Fixpoint str_join (sep : string) (parts : list string) : string :=
  match parts with
  | [] => ""
  | [p] => p
  | p :: rest => p +:+ sep +:+ str_join sep rest
  end.

(** [label.replace('"', '\\"')] *)
Fixpoint escape_quotes (s : string) : string :=
  match s with
  | EmptyString => EmptyString
  | String c s' =>
      if Ascii.eqb c dquote
      then String backslash (String dquote (escape_quotes s'))
      else String c (escape_quotes s')
  end.

Fixpoint has_char (c : ascii) (s : string) : bool :=
  match s with
  | EmptyString => false
  | String c' s' => Ascii.eqb c' c || has_char c s'
  end.

(** ** Exceptions *)

(** The exception of the dictionary lookups.  The walk is embedded as a
    total function: the [RecursionError] of a tree nested deeper than the
    interpreter's recursion limit and the [ValueError] of [repr] have no
    counterpart here, so what is proved of the walk is proved of the runs
    in which the walk completes. *)
Inductive exn : Type := KeyError.

Inductive result (A : Type) : Type :=
| Ok (a : A)
| Raise (e : exn).
Arguments Ok {A} a.
Arguments Raise {A} e.

Global Instance result_ret : MRet result := λ A a, Ok a.
Global Instance result_bind : MBind result := λ A B f m,
  match m with
  | Ok a => f a
  | Raise e => Raise e
  end.

(** ** Python dictionaries: insertion-ordered association lists *)

Abbreviation dict K V := (list (K * V)).

Section dict.
Context {K V : Type} `{EqDecision K}.

(** [d.get(k)] *)
Fixpoint dict_get (k : K) (d : dict K V) : option V :=
  match d with
  | [] => None
  | (k', v) :: d' => if decide (k' = k) then Some v else dict_get k d'
  end.

(** [d[k]], raising [KeyError] on a missing key *)
Definition getitem (k : K) (d : dict K V) : result V :=
  match dict_get k d with
  | Some v => Ok v
  | None => Raise KeyError
  end.

(** [d[k] = v]: an existing key keeps its place, a new key goes last *)
Fixpoint dict_set (k : K) (v : V) (d : dict K V) : dict K V :=
  match d with
  | [] => [(k, v)]
  | (k', v') :: d' =>
      if decide (k' = k) then (k, v) :: d' else (k', v') :: dict_set k v d'
  end.

Definition dict_keys (d : dict K V) : list K := d.*1.
End dict.

(** ** The style builder *)

Definition DEFAULT_FONT : string := "Menlo".
Definition ALLOWED_FONTS : list string :=
  ["Menlo"; "Monaco"; "Helvetica"; "JetBrains Mono"].

(** The keyword arguments of [make_style].  The float-valued options reach
    the output only through their formatted text, which is what the record
    holds for them. *)
Record style_opts : Type := {
  fontname : option string;
  fontsize : Z;
  fontcolor : string;
  penwidth : string;
  border_color : string;
  fillcolor : string;
  edge_fontsize : Z;
  edge_fontcolor : string;
  edge_penwidth : string;
  edge_arrowsize : string;
  edge_color : string;
  width_in : option Z;
  height_in : option Z;
  rankdir : string;
  ranksep : string;
  nodesep : string;
  splines : string;
  force_fit : bool
}.

Definition default_opts : style_opts := {|
  fontname := None;
  fontsize := 15;
  fontcolor := "#000000";
  penwidth := "1.0";
  border_color := "#000000";
  fillcolor := "#E5FDCD";
  edge_fontsize := 12;
  edge_fontcolor := "#555555";
  edge_penwidth := "1.0";
  edge_arrowsize := "0.5";
  edge_color := "#000000";
  width_in := None;
  height_in := None;
  rankdir := "TB";
  ranksep := "0.4";
  nodesep := "0.25";
  splines := "true";
  force_fit := true
|}.

(** Truth value of an [int | None] *)
Definition truthy (x : option Z) : bool :=
  match x with
  | Some n => negb (n =? 0)%Z
  | None => false
  end.

Definition fmt (x : option Z) : string :=
  match x with
  | Some n => pretty n
  | None => "None"
  end.

Definition quoted (s : string) : string := chr dquote +:+ s +:+ chr dquote.

(** Lines 32-38 of [make_style] *)
Definition size_attr (width_in height_in : option Z) (force_fit : bool) : string :=
  let bang := if force_fit then "!" else "" in
  if truthy width_in && truthy height_in then
    " size=" +:+ quoted (fmt width_in +:+ "," +:+ fmt height_in +:+ bang)
  else if truthy width_in then
    " size=" +:+ quoted (fmt width_in +:+ bang)
  else if truthy height_in then
    " size=" +:+ quoted ("100," +:+ fmt height_in +:+ bang)
  else "".

Definition make_style (o : style_opts) : string :=
  let font :=
    match fontname o with
    | Some f => if bool_decide (f ∈ ALLOWED_FONTS) then f else DEFAULT_FONT
    | None => DEFAULT_FONT
    end in
  str_join (chr newline) [
    "";
    "graph [";
    "    bgcolor=" +:+ quoted "transparent";
    "    fontname=" +:+ quoted font;
    "    fontcolor=" +:+ quoted (fontcolor o);
    "    fontsize=" +:+ pretty (fontsize o);
    "    fontnames=" +:+ quoted "ps";
    "    " +:+ size_attr (width_in o) (height_in o) (force_fit o);
    "    rankdir=" +:+ rankdir o;
    "    ranksep=" +:+ ranksep o;
    "    nodesep=" +:+ nodesep o;
    "    splines=" +:+ splines o;
    "    ratio=compress";
    "]";
    "node [";
    "    fontname=" +:+ quoted font;
    "    fontcolor=" +:+ quoted (fontcolor o);
    "    fontsize=" +:+ pretty (fontsize o);
    "    shape=box";
    "    style=" +:+ quoted "rounded, filled";
    "    fillcolor=" +:+ quoted (fillcolor o);
    "    penwidth=" +:+ penwidth o;
    "    color=" +:+ quoted (border_color o);
    "]";
    "edge [";
    "    fontname=" +:+ quoted font;
    "    fontcolor=" +:+ quoted (edge_fontcolor o);
    "    fontsize=" +:+ pretty (edge_fontsize o);
    "    penwidth=" +:+ edge_penwidth o;
    "    arrowsize=" +:+ edge_arrowsize o;
    "    color=" +:+ quoted (edge_color o);
    "]";
    ""
  ].

(** ** The printer *)

Abbreviation graph_t := (dict nat (list nat)).
Abbreviation node_labels_t := (dict nat string).
Abbreviation edge_labels_t := (dict (nat * nat) string).

Definition node_line (node_labels : node_labels_t) (n : nat) : result string :=
  label ← getitem n node_labels;
  mret (pretty n +:+ " [label=" +:+ quoted (escape_quotes label) +:+ "]").

Definition edge_line (edge_labels : edge_labels_t) (e : nat * nat) : result string :=
  label ← getitem e edge_labels;
  mret (pretty e.1 +:+ " -> " +:+ pretty e.2 +:+ " [label=" +:+ quoted label +:+ "]").

(** [(src, dst) for src in graph for dst in graph[src]] *)
Definition edges (graph : graph_t) : list (nat * nat) :=
  flat_map (λ '(src, children), map (pair src) children) graph.

Definition graph_to_dot (graph : graph_t) (node_labels : node_labels_t)
    (edge_labels : edge_labels_t) (style : string) : result string :=
  node_lines ← mapM (node_line node_labels) (dict_keys graph);
  edge_lines ← mapM (edge_line edge_labels) (edges graph);
  mret (str_join (chr newline)
          (("digraph G {" +:+ style) :: node_lines ++ edge_lines ++ ["}"])).

(** ** The default skip predicate *)

Definition is_empty_list (value : pyobj) : bool :=
  match value with
  | PyList [] => true
  | _ => false
  end.

Definition is_none (value : pyobj) : bool :=
  match value with
  | Leaf LNone => true
  | _ => false
  end.

(** [name != 'value' and value in ([], None)] *)
Definition skip (name : string) (value : pyobj) : bool :=
  negb (String.eqb name "value") && (is_empty_list value || is_none value).

(** ** The walk *)

(** The three dictionaries that the closures of [_to_dot_from_ast] share. *)
Record walk_state : Type := {
  graph : graph_t;
  node_labels : node_labels_t;
  edge_labels : edge_labels_t
}.

Definition empty_state : walk_state :=
  {| graph := []; node_labels := []; edge_labels := [] |}.

Definition set_graph (g : graph_t) (st : walk_state) : walk_state :=
  {| graph := g; node_labels := node_labels st; edge_labels := edge_labels st |}.
Definition set_node_label (n : nat) (s : string) (st : walk_state) : walk_state :=
  {| graph := graph st; node_labels := dict_set n s (node_labels st);
     edge_labels := edge_labels st |}.
Definition set_edge_label (e : nat * nat) (s : string) (st : walk_state) : walk_state :=
  {| graph := graph st; node_labels := node_labels st;
     edge_labels := dict_set e s (edge_labels st) |}.

(** Lines 107-111 of [walk_node]: allocate the id, then link it to the parent. *)
Definition alloc (st : walk_state) : walk_state :=
  set_graph (dict_set (length (graph st)) [] (graph st)) st.

Definition link (parent_id : option nat) (node_id : nat) (edge_label : string)
    (st : walk_state) : result walk_state :=
  match parent_id with
  | None => mret st
  | Some p =>
      children ← getitem p (graph st);
      mret (set_edge_label (p, node_id) edge_label
              (set_graph (dict_set p (children ++ [node_id]) (graph st)) st))
  end.

Section walk.
Variable skip_fn : string → pyobj → bool.

Fixpoint walk_node (parent_id : option nat) (node : pyobj) (edge_label : string)
    (st : walk_state) {struct node} : result walk_state :=
  let node_id := length (graph st) in
  st ← link parent_id node_id edge_label (alloc st);
  match node with
  | PyAST cls fields =>
      r ← (fix walk_fields (fields : list (string * pyobj)) (args : list string)
               (st : walk_state) {struct fields} : result (list string * walk_state) :=
             match fields with
             | [] => mret (args, st)
             | (name, value) :: fields' =>
                 if skip_fn name value then walk_fields fields' args st
                 else match value with
                      | Leaf l =>
                          walk_fields fields' (args ++ [name +:+ ": " +:+ repr l]) st
                      | _ =>
                          st ← walk_node (Some node_id) value ("." +:+ name) st;
                          walk_fields fields' args st
                      end
             end) fields [] st;
      mret (set_node_label node_id (str_join "\n" (cls :: r.1)) r.2)
  | PyList xs =>
      (fix walk_items (i : nat) (xs : list pyobj) (st : walk_state) {struct xs}
           : result walk_state :=
         match xs with
         | [] => mret st
         | x :: xs' =>
             st ← walk_node (Some node_id) x ("[" +:+ pretty i +:+ "]") st;
             walk_items (S i) xs' st
         end) 0 xs (set_node_label node_id "list" st)
  | Leaf _ => mret st
  end.

(** The loop of [walk_fields], started with the [args] collected so far. *)
Definition walk_fields (node_id : nat) :
    list (string * pyobj) → list string → walk_state →
    result (list string * walk_state) :=
  fix walk_fields fields args st {struct fields} :=
    match fields with
    | [] => mret (args, st)
    | (name, value) :: fields' =>
        if skip_fn name value then walk_fields fields' args st
        else match value with
             | Leaf l =>
                 walk_fields fields' (args ++ [name +:+ ": " +:+ repr l]) st
             | _ =>
                 st ← walk_node (Some node_id) value ("." +:+ name) st;
                 walk_fields fields' args st
             end
    end.

(** The [for i, x in enumerate(node)] loop of [walk_node], from index [i]. *)
Definition walk_items (node_id : nat) :
    nat → list pyobj → walk_state → result walk_state :=
  fix walk_items i xs st {struct xs} :=
    match xs with
    | [] => mret st
    | x :: xs' =>
        st ← walk_node (Some node_id) x ("[" +:+ pretty i +:+ "]") st;
        walk_items (S i) xs' st
    end.

Definition _to_dot_from_ast (root : pyobj) (style : option string) : result string :=
  let style := match style with
               | None => make_style default_opts
               | Some s => s
               end in
  st ← walk_node None root "" empty_state;
  graph_to_dot (graph st) (node_labels st) (edge_labels st) style.
End walk.

(** [ast_to_dot(node, skip=skip, style=None)] *)
Definition ast_to_dot (node : pyobj) (skip_fn : string → pyobj → bool)
    (style : option string) : result string :=
  _to_dot_from_ast skip_fn node style.

(** ** Sample trees *)

Definition Constant (n : Z) : pyobj :=
  PyAST "Constant" [("value", Leaf (LInt n)); ("kind", Leaf LNone)].
Definition BinOp (l op r : pyobj) : pyobj :=
  PyAST "BinOp" [("left", l); ("op", op); ("right", r)].
Definition Add : pyobj := PyAST "Add" [].
Definition Expr (v : pyobj) : pyobj := PyAST "Expr" [("value", v)].
Definition Module (body : list pyobj) : pyobj :=
  PyAST "Module" [("body", PyList body); ("type_ignores", PyList [])].

(** [ast.parse('2 + 2')] *)
Definition two_plus_two : pyobj :=
  Module [Expr (BinOp (Constant 2) Add (Constant 2))].

Definition Global (names : list string) : pyobj :=
  PyAST "Global" [("names", PyList (map (λ x, Leaf (LOther x)) names))].

(** [ast.parse('global x')]; the name is the [str] whose [repr] is ['x'] *)
Definition global_x : pyobj :=
  PyAST "Module" [("body", PyList [Global ["'x'"]]); ("type_ignores", PyList [])].

(** [ast.parse('1 + 2 + 3')] *)
Definition one_plus_two_plus_three : pyobj :=
  Module [Expr (BinOp (BinOp (Constant 1) Add (Constant 2)) Add (Constant 3))].


(** ** What the walk visits, as pure functions of the tree *)

Definition is_composite (v : pyobj) : bool :=
  match v with
  | Leaf _ => false
  | _ => true
  end.

Section visits.
Variable skip_fn : string → pyobj → bool.

(** The values [walk_node] is called on, in call order. *)
Fixpoint targets (node : pyobj) : list pyobj :=
  match node with
  | Leaf _ => [node]
  | PyList xs => node :: flat_map targets xs
  | PyAST _ fields =>
      node :: flat_map (λ '(name, value),
                if skip_fn name value then []
                else match value with
                     | Leaf _ => []
                     | _ => targets value
                     end) fields
  end.

Definition field_targets (fields : list (string * pyobj)) : list pyobj :=
  flat_map (λ '(name, value),
    if skip_fn name value then []
    else match value with
         | Leaf _ => []
         | _ => targets value
         end) fields.

(** The label fragments [walk_fields] returns. *)
Fixpoint leaf_args (fields : list (string * pyobj)) : list string :=
  match fields with
  | [] => []
  | (name, value) :: fields' =>
      if skip_fn name value then leaf_args fields'
      else match value with
           | Leaf l => (name +:+ ": " +:+ repr l) :: leaf_args fields'
           | _ => leaf_args fields'
           end
  end.

(** The label [walk_node] stores for a value, if any. *)
Definition label_of (node : pyobj) : option string :=
  match node with
  | Leaf _ => None
  | PyList _ => Some "list"
  | PyAST cls fields => Some (str_join "\n" (cls :: leaf_args fields))
  end.

(** The tree without the fields that the predicate skips. *)
Fixpoint prune (node : pyobj) : pyobj :=
  match node with
  | Leaf l => Leaf l
  | PyList xs => PyList (map prune xs)
  | PyAST cls fields =>
      PyAST cls
        (flat_map (λ '(name, value),
           if skip_fn name value then [] else [(name, prune value)]) fields)
  end.
End visits.

Definition no_skip (name : string) (value : pyobj) : bool := false.


(** ** Induction on trees *)

Section pyobj_ind.
Variable P : pyobj → Prop.
Hypothesis Hleaf : ∀ l, P (Leaf l).
Hypothesis Hlist : ∀ xs, Forall P xs → P (PyList xs).
Hypothesis Hast : ∀ cls fields, Forall (λ f, P f.2) fields → P (PyAST cls fields).

Fixpoint pyobj_ind (node : pyobj) : P node :=
  match node with
  | Leaf l => Hleaf l
  | PyList xs =>
      Hlist xs ((fix go xs : Forall P xs :=
                   match xs with
                   | [] => Forall_nil_2 P
                   | x :: xs' => Forall_cons_2 P x xs' (pyobj_ind x) (go xs')
                   end) xs)
  | PyAST cls fields =>
      Hast cls fields
        ((fix go fs : Forall (λ f, P f.2) fs :=
            match fs with
            | [] => Forall_nil_2 _
            | f :: fs' => Forall_cons_2 (λ f, P f.2) f fs' (pyobj_ind f.2) (go fs')
            end) fields)
  end.
End pyobj_ind.

(** ** Notions used in the statements *)

(** All the ids listed in the adjacency lists, with repetitions. *)
Definition children (g : graph_t) : list nat := concat g.*2.

(** Edges compared by parent id, then by child id. *)
Definition edge_lt (a b : nat * nat) : Prop :=
  a.1 < b.1 ∨ (a.1 = b.1 ∧ a.2 < b.2).

(** The invariant of the walk: the keys of [graph] are 0 .. n-1 in this
    order, each adjacency list is increasing and holds ids below n, no
    label is stored for an id that is not allocated yet, and every edge of
    [graph] has its label in [edge_labels]. *)
Record wf (st : walk_state) : Prop := {
  wf_keys : dict_keys (graph st) = seq 0 (length (graph st));
  wf_sorted :
    Forall (λ kv, StronglySorted lt kv.2 ∧ Forall (λ c, c < length (graph st)) kv.2)
           (graph st);
  wf_labels : ∀ k, length (graph st) ≤ k → dict_get k (node_labels st) = None;
  wf_edges : Forall (λ e, is_Some (dict_get e (edge_labels st))) (edges (graph st))
}.

Definition parent_ok (parent_id : option nat) (st : walk_state) : Prop :=
  match parent_id with
  | Some p => p < length (graph st)
  | None => True
  end.

Definition link_child (parent_id : option nat) (n : nat) : list nat :=
  match parent_id with
  | Some _ => [n]
  | None => []
  end.

Definition new_children (parent_id : option nat) (n : nat) (ts : list pyobj) : list nat :=
  match parent_id with
  | Some _ => seq n (length ts)
  | None => tail (seq n (length ts))
  end.

Section walk_relations.
Variable skip_fn : string → pyobj → bool.

(** [walked new ts st st']: going from [st] to [st'], the walk visited the
    values [ts] in this order, gave them the next free ids, stored their
    labels, left the older labels alone, and added exactly the ids [new]
    to the adjacency lists. *)
Definition walked (new : list nat) (ts : list pyobj) (st st' : walk_state) : Prop :=
  wf st' ∧
  length (graph st') = length (graph st) + length ts ∧
  (∀ k, k < length (graph st) →
        dict_get k (node_labels st') = dict_get k (node_labels st)) ∧
  (∀ i v, ts !! i = Some v →
          dict_get (length (graph st) + i) (node_labels st') = label_of skip_fn v) ∧
  children (graph st') ≡ₚ children (graph st) ++ new.

(** The statement proved of every tree by induction. *)
Definition walk_node_ok (node : pyobj) : Prop :=
  ∀ parent_id edge_label st, wf st → parent_ok parent_id st →
    ∃ st', walk_node skip_fn parent_id node edge_label st = Ok st' ∧
      walked (new_children parent_id (length (graph st)) (targets skip_fn node))
             (targets skip_fn node) st st'.

End walk_relations.

Definition style_text (style : option string) : string :=
  match style with
  | None => make_style default_opts
  | Some s => s
  end.

(** The order as the specification words it: the lines of each group in the
    order in which the node or the edge was recorded, that is the order of
    the keys of [graph] and of [edge_labels]. *)
Definition dot_in_recording_order (st : walk_state) (style : string) : result string :=
  node_lines ← mapM (node_line (node_labels st)) (dict_keys (graph st));
  edge_lines ← mapM (edge_line (edge_labels st)) (dict_keys (edge_labels st));
  mret (str_join (chr newline)
          (("digraph G {" +:+ style) :: node_lines ++ edge_lines ++ ["}"])).

(** An [int | None] option that line 33 takes for missing. *)
Definition absent (x : option Z) : Prop := x = None ∨ x = Some 0%Z.
Definition mandatory (force_fit : bool) : string := if force_fit then "!" else "".



(** The expected output of the scenario [2 + 2]. *)
Definition two_plus_two_dot : string :=
  str_join (chr newline) [
    "digraph G {";
    "0 [label=" +:+ quoted "Module" +:+ "]";
    "1 [label=" +:+ quoted "list" +:+ "]";
    "2 [label=" +:+ quoted "Expr" +:+ "]";
    "3 [label=" +:+ quoted "BinOp" +:+ "]";
    "4 [label=" +:+ quoted "Constant\nvalue: 2" +:+ "]";
    "5 [label=" +:+ quoted "Add" +:+ "]";
    "6 [label=" +:+ quoted "Constant\nvalue: 2" +:+ "]";
    "0 -> 1 [label=" +:+ quoted ".body" +:+ "]";
    "1 -> 2 [label=" +:+ quoted "[0]" +:+ "]";
    "2 -> 3 [label=" +:+ quoted ".value" +:+ "]";
    "3 -> 4 [label=" +:+ quoted ".left" +:+ "]";
    "3 -> 5 [label=" +:+ quoted ".op" +:+ "]";
    "3 -> 6 [label=" +:+ quoted ".right" +:+ "]";
    "}"
  ].

(** The node of the literal [None]: [Constant(value=None, kind=None)] *)
Definition constant_none : pyobj :=
  PyAST "Constant" [("value", Leaf LNone); ("kind", Leaf LNone)].

(** ** Notions used in the further properties *)

(** [make_style(fontname=f, ...)] with the other options of [o] *)
Definition set_fontname (f : option string) (o : style_opts) : style_opts :=
  {| fontname := f;
     fontsize := fontsize o;
     fontcolor := fontcolor o;
     penwidth := penwidth o;
     border_color := border_color o;
     fillcolor := fillcolor o;
     edge_fontsize := edge_fontsize o;
     edge_fontcolor := edge_fontcolor o;
     edge_penwidth := edge_penwidth o;
     edge_arrowsize := edge_arrowsize o;
     edge_color := edge_color o;
     width_in := width_in o;
     height_in := height_in o;
     rankdir := rankdir o;
     ranksep := ranksep o;
     nodesep := nodesep o;
     splines := splines o;
     force_fit := force_fit o |}.

(** Every double quote of [s] comes right after a backslash; [after_backslash]
    tells whether the character before [s] is one. *)
Fixpoint quotes_guarded (after_backslash : bool) (s : string) : bool :=
  match s with
  | EmptyString => true
  | String c s' =>
      (if Ascii.eqb c dquote then after_backslash else true)
      && quotes_guarded (Ascii.eqb c backslash) s'
  end.

(** The children recorded for [parent] among edge keys, in their order. *)
Definition children_of (parent : nat) (keys : list (nat * nat)) : list nat :=
  (filter (λ e, e.1 = parent) keys).*2.

(** The keys of [edge_labels] go from an id to a larger, allocated one. *)
Definition edge_keys_ok (st : walk_state) : Prop :=
  Forall (λ e, e.1 < e.2 < length (graph st)) (dict_keys (edge_labels st)).

(** Each adjacency list of [graph] is what [edge_labels] has for its key. *)
Definition adjacency_ok (st : walk_state) : Prop :=
  ∀ k, k < length (graph st) →
       dict_get k (graph st) = Some (children_of k (dict_keys (edge_labels st))).

Definition link_entry (parent_id : option nat) (n : nat) (edge_label : string)
    : list ((nat * nat) * string) :=
  match parent_id with
  | Some p => [((p, n), edge_label)]
  | None => []
  end.

(** No list of the tree holds a leaf. *)
Fixpoint lists_hold_no_leaf (node : pyobj) : bool :=
  match node with
  | Leaf _ => true
  | PyList xs => forallb (λ x, is_composite x && lists_hold_no_leaf x) xs
  | PyAST _ fields => forallb (λ '(_, value), lists_hold_no_leaf value) fields
  end.

Section edge_log.
Variable skip_fn : string → pyobj → bool.

(** The entries that the walk below [node], whose id is [n], adds to
    [edge_labels], in the order it adds them: for each kept field holding a
    node or a list, and for each item of a list, the edge to the child,
    which gets the next free id, then the entries of the walk below that
    child. *)
Fixpoint edge_log (n : nat) (node : pyobj) : list ((nat * nat) * string) :=
  match node with
  | Leaf _ => []
  | PyList xs =>
      (fix items_log (i next : nat) (xs : list pyobj) {struct xs} :=
         match xs with
         | [] => []
         | x :: xs' =>
             ((n, next), "[" +:+ pretty i +:+ "]")
               :: edge_log next x
               ++ items_log (S i) (next + length (targets skip_fn x)) xs'
         end) 0 (S n) xs
  | PyAST _ fields =>
      (fix fields_log (next : nat) (fields : list (string * pyobj)) {struct fields} :=
         match fields with
         | [] => []
         | (name, value) :: fields' =>
             if skip_fn name value then fields_log next fields'
             else match value with
                  | Leaf _ => fields_log next fields'
                  | _ =>
                      ((n, next), "." +:+ name)
                        :: edge_log next value
                        ++ fields_log (next + length (targets skip_fn value)) fields'
                  end
         end) (S n) fields
  end.

Definition items_log (n : nat) : nat → nat → list pyobj → list ((nat * nat) * string) :=
  fix items_log i next xs {struct xs} :=
    match xs with
    | [] => []
    | x :: xs' =>
        ((n, next), "[" +:+ pretty i +:+ "]")
          :: edge_log next x
          ++ items_log (S i) (next + length (targets skip_fn x)) xs'
    end.

Definition fields_log (n : nat) : nat → list (string * pyobj) → list ((nat * nat) * string) :=
  fix fields_log next fields {struct fields} :=
    match fields with
    | [] => []
    | (name, value) :: fields' =>
        if skip_fn name value then fields_log next fields'
        else match value with
             | Leaf _ => fields_log next fields'
             | _ =>
                 ((n, next), "." +:+ name)
                   :: edge_log next value
                   ++ fields_log (next + length (targets skip_fn value)) fields'
             end
    end.

(** A property [I] of states that one call of the walk preserves. *)
Definition preserves (I : walk_state → Prop) (node : pyobj) : Prop :=
  ∀ parent_id edge_label st st',
    wf st → parent_ok parent_id st → I st →
    walk_node skip_fn parent_id node edge_label st = Ok st' → I st'.

(** What one call of the walk adds to [edge_labels]. *)
Definition logs_edges (node : pyobj) : Prop :=
  ∀ parent_id edge_label st st',
    wf st → parent_ok parent_id st → edge_keys_ok st →
    walk_node skip_fn parent_id node edge_label st = Ok st' →
    edge_labels st'
    = edge_labels st
        ++ link_entry parent_id (length (graph st)) edge_label
        ++ edge_log (length (graph st)) node.
End edge_log.

Section dot_of_tree.
Variable skip_fn : string → pyobj → bool.

(** The line of the node with id [i] that stands for the value [v]. *)
Definition node_text (i : nat) (v : pyobj) : string :=
  pretty i +:+ " [label="
    +:+ quoted (escape_quotes (default "" (label_of skip_fn v))) +:+ "]".

(** The line of an entry of the edge log. *)
Definition edge_text (entry : (nat * nat) * string) : string :=
  pretty entry.1.1 +:+ " -> " +:+ pretty entry.1.2
    +:+ " [label=" +:+ quoted entry.2 +:+ "]".

(** The output as a function of the tree, without any state: [KeyError] if
    some visited value is a leaf; otherwise the header, one line per
    visited value in visit order, then for each id in increasing order the
    lines of the edges that leave it, in the order of the edge log, then
    the closing brace. *)
Definition dot_of_tree (root : pyobj) (style : string) : result string :=
  let ts := targets skip_fn root in
  let log := edge_log skip_fn 0 root in
  if forallb is_composite ts then
    Ok (str_join (chr newline)
          (("digraph G {" +:+ style)
             :: zip_with node_text (seq 0 (length ts)) ts
             ++ flat_map (λ k, edge_text <$> filter (λ entry, entry.1.1 = k) log)
                         (seq 0 (length ts))
             ++ ["}"]))
  else Raise KeyError.
End dot_of_tree.

(** ** Quoted strings of the output *)




(** The state after the walk of [two_plus_two] and of [global_x]. *)
Definition two_plus_two_state : walk_state :=
  {| graph := [(0, [1]); (1, [2]); (2, [3]); (3, [4; 5; 6]);
               (4, []); (5, []); (6, [])];
     node_labels := [(1, "list"); (4, "Constant\nvalue: 2"); (5, "Add");
                     (6, "Constant\nvalue: 2"); (3, "BinOp"); (2, "Expr");
                     (0, "Module")];
     edge_labels := [((0, 1), ".body"); ((1, 2), "[0]"); ((2, 3), ".value");
                     ((3, 4), ".left"); ((3, 5), ".op"); ((3, 6), ".right")] |}.

Definition global_x_state : walk_state :=
  {| graph := [(0, [1]); (1, [2]); (2, [3]); (3, [4]); (4, [])];
     node_labels := [(1, "list"); (3, "list"); (2, "Global"); (0, "Module")];
     edge_labels := [((0, 1), ".body"); ((1, 2), "[0]");
                     ((2, 3), ".names"); ((3, 4), "[0]")] |}.

(** * Properties *)

(** ** Unfolding the walk *)

Lemma walk_node_eq skip_fn parent_id node edge_label st :
  walk_node skip_fn parent_id node edge_label st =
  (st1 ← link parent_id (length (graph st)) edge_label (alloc st);
   match node with
   | PyAST cls fields =>
       r ← walk_fields skip_fn (length (graph st)) fields [] st1;
       mret (set_node_label (length (graph st)) (str_join "\n" (cls :: r.1)) r.2)
   | PyList xs =>
       walk_items skip_fn (length (graph st)) 0 xs
         (set_node_label (length (graph st)) "list" st1)
   | Leaf _ => mret st1
   end).
Proof. destruct node; reflexivity. Qed.

(** ** Facts about dictionaries *)

Section dict_facts.
Context {K V : Type} `{EqDecision K}.
Implicit Types (d : dict K V) (k : K) (v : V).

Lemma dict_get_set d k k' v :
  dict_get k' (dict_set k v d) = if decide (k = k') then Some v else dict_get k' d.
Proof.
  induction d as [|[k0 v0] d IH]; simpl.
  - destruct (decide (k = k')); reflexivity.
  - destruct (decide (k0 = k)) as [->|Hne]; simpl.
    + destruct (decide (k = k')); reflexivity.
    + rewrite IH. destruct (decide (k0 = k')) as [->|]; [|reflexivity].
      destruct (decide (k = k')); congruence.
Qed.

Lemma dict_get_set_eq d k v : dict_get k (dict_set k v d) = Some v.
Proof. rewrite dict_get_set. destruct (decide (k = k)); congruence. Qed.

Lemma dict_get_set_ne d k k' v :
  k ≠ k' → dict_get k' (dict_set k v d) = dict_get k' d.
Proof. intros. rewrite dict_get_set. destruct (decide (k = k')); congruence. Qed.

Lemma dict_get_None d k : dict_get k d = None ↔ k ∉ dict_keys d.
Proof.
  unfold dict_keys. induction d as [|[k0 v0] d IH]; simpl.
  - split; [intros _; apply not_elem_of_nil | reflexivity].
  - rewrite not_elem_of_cons. destruct (decide (k0 = k)) as [->|Hne].
    + split; [discriminate | intros [Hk _]; destruct Hk; reflexivity].
    + rewrite IH. split; [intros ?; split; [congruence | assumption] | intros [_ ?]; assumption].
Qed.

Lemma dict_get_Some d k v : dict_get k d = Some v → (k, v) ∈ d.
Proof.
  induction d as [|[k0 v0] d IH]; simpl; [discriminate|].
  destruct (decide (k0 = k)) as [->|Hne].
  - intros [= ->]. apply list_elem_of_here.
  - intros. apply list_elem_of_further. auto.
Qed.

Lemma dict_get_app_l d d' k v :
  dict_get k d = Some v → dict_get k (d ++ d') = Some v.
Proof.
  induction d as [|[k0 v0] d IH]; simpl; [discriminate|].
  destruct (decide (k0 = k)); auto.
Qed.

Lemma dict_set_fresh d k v : k ∉ dict_keys d → dict_set k v d = d ++ [(k, v)].
Proof.
  unfold dict_keys. induction d as [|[k0 v0] d IH]; simpl; [reflexivity|].
  rewrite not_elem_of_cons. intros [Hne Hnin].
  destruct (decide (k0 = k)); [congruence|]. f_equal. apply IH, Hnin.
Qed.

Lemma dict_keys_set_present d k v :
  is_Some (dict_get k d) → dict_keys (dict_set k v d) = dict_keys d.
Proof.
  unfold dict_keys. induction d as [|[k0 v0] d IH]; simpl.
  - intros [? [=]].
  - destruct (decide (k0 = k)) as [->|Hne]; [reflexivity|].
    intros. rewrite !fmap_cons, IH; auto.
Qed.

Lemma dict_set_length_present d k v :
  is_Some (dict_get k d) → length (dict_set k v d) = length d.
Proof.
  intros Hk. apply dict_keys_set_present with (v := v) in Hk.
  unfold dict_keys in Hk. rewrite <-(length_fmap fst), Hk, length_fmap. reflexivity.
Qed.

Lemma dict_set_Forall (Q : K * V → Prop) d k v :
  Forall Q d → Q (k, v) → Forall Q (dict_set k v d).
Proof.
  intros Hd Hkv. induction Hd as [|[k0 v0] d Hq Hd IH]; simpl.
  - repeat constructor. assumption.
  - destruct (decide (k0 = k)); constructor; auto.
Qed.


Lemma dict_get_set_is_Some d k k' v :
  is_Some (dict_get k' d) → is_Some (dict_get k' (dict_set k v d)).
Proof.
  rewrite dict_get_set. destruct (decide (k = k')); [eauto | auto].
Qed.
End dict_facts.

(** ** Facts about adjacency lists *)

Lemma edges_cons src l (g : graph_t) :
  edges ((src, l) :: g) = map (pair src) l ++ edges g.
Proof. reflexivity. Qed.

Lemma Forall_edges (Q : nat * nat → Prop) (g : graph_t) :
  Forall Q (edges g) ↔ Forall (λ kv, Forall (λ c, Q (kv.1, c)) kv.2) g.
Proof.
  induction g as [|[src l] g IH].
  - split; constructor.
  - rewrite edges_cons, Forall_app, Forall_cons, IH, Forall_fmap. reflexivity.
Qed.

Lemma children_set_append (g : graph_t) p l c :
  dict_get p g = Some l → children (dict_set p (l ++ [c]) g) ≡ₚ c :: children g.
Proof.
  unfold children. induction g as [|[k0 l0] g IH]; simpl; [discriminate|].
  destruct (decide (k0 = p)) as [->|Hne].
  - intros [= ->]. simpl. rewrite <-(assoc_L (++)). simpl.
    symmetry. apply Permutation_middle.
  - intros Hp. simpl. rewrite (IH Hp). symmetry. apply Permutation_middle.
Qed.

Lemma children_app (g1 g2 : graph_t) : children (g1 ++ g2) = children g1 ++ children g2.
Proof. unfold children. rewrite fmap_app, concat_app. reflexivity. Qed.

(** ** The invariant of the walk *)

Lemma wf_empty : wf empty_state.
Proof. split; simpl; [reflexivity | constructor | reflexivity | constructor]. Qed.

Lemma wf_lookup st p :
  wf st → p < length (graph st) → ∃ l, dict_get p (graph st) = Some l.
Proof.
  intros Hwf Hp. destruct (dict_get p (graph st)) as [l|] eqn:Hget; [eauto|].
  apply dict_get_None in Hget. rewrite (wf_keys _ Hwf) in Hget.
  destruct Hget. apply elem_of_seq. lia.
Qed.

Lemma wf_fresh st : wf st → length (graph st) ∉ dict_keys (graph st).
Proof. intros Hwf. rewrite (wf_keys _ Hwf), elem_of_seq. lia. Qed.

Arguments alloc : simpl never.

Lemma alloc_graph st :
  wf st → graph (alloc st) = graph st ++ [(length (graph st), [])].
Proof. intros Hwf. unfold alloc. apply dict_set_fresh, wf_fresh, Hwf. Qed.

Lemma StronglySorted_snoc (l : list nat) n :
  StronglySorted lt l → Forall (λ c, c < n) l → StronglySorted lt (l ++ [n]).
Proof.
  induction 1 as [|x l Hl IH Hx]; intros Hb; simpl.
  - repeat constructor.
  - apply Forall_cons in Hb as [Hxn Hb]. constructor; [auto|].
    apply Forall_app. split; [assumption | repeat constructor; assumption].
Qed.

(** Lines 107-111: the new id is the old size of [graph]; afterwards the
    graph has one more key, the labels are as before, and the id has been
    appended to the parent's adjacency list. *)
Lemma enter_spec parent_id edge_label st :
  wf st → parent_ok parent_id st →
  ∃ st1, link parent_id (length (graph st)) edge_label (alloc st) = Ok st1 ∧
    wf st1 ∧ length (graph st1) = S (length (graph st)) ∧
    node_labels st1 = node_labels st ∧
    children (graph st1) ≡ₚ
      children (graph st) ++ link_child parent_id (length (graph st)).
Proof.
  intros Hwf Hp. set (n := length (graph st)).
  assert (Hg : graph (alloc st) = graph st ++ [(n, [])]) by (apply alloc_graph, Hwf).
  assert (Hwf1 : wf (alloc st) ∧ length (graph (alloc st)) = S n).
  { split; [split|]; rewrite ?Hg, ?length_app; simpl; fold n.
    - unfold dict_keys. rewrite fmap_app, Nat.add_1_r, seq_S.
      f_equal. apply (wf_keys _ Hwf).
    - apply Forall_app. split.
      + eapply Forall_impl; [apply (wf_sorted _ Hwf)|]. simpl. intros kv [Hs Hb].
        split; [assumption|]. eapply Forall_impl; [exact Hb|]. simpl. fold n. lia.
      + repeat constructor.
    - intros k Hk. apply (wf_labels _ Hwf). fold n. lia.
    - unfold edges. rewrite flat_map_app. apply Forall_app. split.
      + apply (wf_edges _ Hwf).
      + simpl. constructor.
    - lia. }
  destruct Hwf1 as [Hwf1 Hlen1].
  assert (Hnl : node_labels (alloc st) = node_labels st) by reflexivity.
  revert Hg Hwf1 Hlen1 Hnl. generalize (alloc st). intros st0 Hg Hwf1 Hlen1 Hnl.
  destruct parent_id as [p|]; simpl in Hp; unfold link.
  - destruct (wf_lookup st p Hwf Hp) as [l Hl].
    assert (Hl1 : dict_get p (graph st0) = Some l).
    { rewrite Hg. apply dict_get_app_l, Hl. }
    assert (Hsome : is_Some (dict_get p (graph st0))) by eauto.
    unfold getitem. rewrite Hl1. simpl. eexists. split; [reflexivity|].
    assert (Hbound : Forall (λ c, c < n) l ∧ StronglySorted lt l).
    { pose proof (wf_sorted _ Hwf) as Hs. rewrite Forall_forall in Hs.
      destruct (Hs _ (dict_get_Some _ _ _ Hl)) as [? ?]. split; assumption. }
    destruct Hbound as [Hb Hs].
    split; [split|]; simpl.
    + rewrite dict_keys_set_present, dict_set_length_present by assumption.
      apply (wf_keys _ Hwf1).
    + rewrite dict_set_length_present by assumption.
      apply dict_set_Forall; [apply (wf_sorted _ Hwf1)|]. simpl. split.
      * apply StronglySorted_snoc; assumption.
      * rewrite Hlen1. apply Forall_app. split.
        -- eapply Forall_impl; [exact Hb|]. simpl. lia.
        -- repeat constructor.
    + intros k Hk. rewrite dict_set_length_present in Hk by assumption.
      apply (wf_labels _ Hwf1 k Hk).
    + assert (HE : Forall (λ e, is_Some (dict_get e
                 (dict_set (p, n) edge_label (edge_labels st0)))) (edges (graph st0))).
      { eapply Forall_impl; [apply (wf_edges _ Hwf1)|].
        simpl. intros e He. apply dict_get_set_is_Some, He. }
      apply Forall_edges in HE. apply Forall_edges.
      apply dict_set_Forall; [exact HE|]. simpl. apply Forall_app. split.
      * rewrite Forall_forall in HE. apply (HE _ (dict_get_Some _ _ _ Hl1)).
      * repeat constructor. rewrite dict_get_set_eq. eauto.
    + rewrite dict_set_length_present by assumption.
      split; [assumption|]. split; [assumption|].
      rewrite (children_set_append _ _ _ _ Hl1), Hg, children_app.
      unfold children at 2. simpl. rewrite app_nil_r.
      fold n. apply Permutation_cons_append.
  - eexists. split; [reflexivity|]. split; [assumption|]. split; [assumption|].
    split; [assumption|]. rewrite Hg, children_app. unfold children at 2. simpl.
    reflexivity.
Qed.

(** ** What one call of the walk does to the state *)

Section walk_spec.
Variable skip_fn : string → pyobj → bool.

Lemma walked_nil st : wf st → walked skip_fn [] [] st st.
Proof.
  intros Hwf. split; [assumption|]. split; [simpl; lia|]. split; [reflexivity|].
  split; [intros i v [=] | rewrite app_nil_r; reflexivity].
Qed.

Lemma walked_trans c1 c2 ts1 ts2 st st1 st2 :
  walked skip_fn c1 ts1 st st1 → walked skip_fn c2 ts2 st1 st2 →
  walked skip_fn (c1 ++ c2) (ts1 ++ ts2) st st2.
Proof.
  intros (_ & Hlen1 & Hfr1 & Hlab1 & Hch1) (Hwf2 & Hlen2 & Hfr2 & Hlab2 & Hch2).
  split; [assumption|]. split; [rewrite length_app; lia|]. split; [|split].
  - intros k Hk. rewrite Hfr2 by lia. apply Hfr1, Hk.
  - intros i v Hi. destruct (decide (i < length ts1)) as [Hlt|Hge].
    + rewrite lookup_app_l in Hi by assumption.
      rewrite Hfr2 by lia. apply Hlab1, Hi.
    + rewrite lookup_app_r in Hi by lia. apply Hlab2 in Hi.
      rewrite <-Hi. f_equal. lia.
  - rewrite Hch2, Hch1, (assoc_L (++)). reflexivity.
Qed.

Lemma walk_items_spec xs :
  Forall (walk_node_ok skip_fn) xs →
  ∀ node_id i st, wf st → node_id < length (graph st) →
    ∃ st', walk_items skip_fn node_id i xs st = Ok st' ∧
      walked skip_fn (seq (length (graph st)) (length (flat_map (targets skip_fn) xs)))
             (flat_map (targets skip_fn) xs) st st'.
Proof.
  induction 1 as [|x xs Hx _ IH]; intros node_id i st Hwf Hid.
  - exists st. split; [reflexivity|]. apply walked_nil, Hwf.
  - destruct (Hx (Some node_id) ("[" +:+ pretty i +:+ "]") st Hwf Hid)
      as (st1 & Hrun1 & Hw1).
    destruct (IH node_id (S i) st1) as (st2 & Hrun2 & Hw2).
    { apply Hw1. }
    { destruct Hw1 as (_ & Hlen & _). lia. }
    exists st2. split.
    + simpl. rewrite Hrun1. exact Hrun2.
    + simpl. rewrite length_app, seq_app.
      replace (length (graph st) + length (targets skip_fn x))
        with (length (graph st1)) by (destruct Hw1 as (_ & Hlen & _); lia).
      eapply walked_trans; eassumption.
Qed.

Lemma walk_fields_spec fields :
  Forall (λ f, walk_node_ok skip_fn f.2) fields →
  ∀ node_id args st, wf st → node_id < length (graph st) →
    ∃ st', walk_fields skip_fn node_id fields args st
             = Ok (args ++ leaf_args skip_fn fields, st') ∧
      walked skip_fn (seq (length (graph st)) (length (field_targets skip_fn fields)))
             (field_targets skip_fn fields) st st'.
Proof.
  induction 1 as [|[name value] fields Hx _ IH]; intros node_id args st Hwf Hid.
  - exists st. split; [simpl; rewrite app_nil_r; reflexivity|]. apply walked_nil, Hwf.
  - simpl in Hx. unfold field_targets. simpl. fold (field_targets skip_fn fields).
    destruct (skip_fn name value) eqn:Hskip.
    { destruct (IH node_id args st Hwf Hid) as (st' & Hrun & Hw). eauto. }
    destruct value as [l|ys|cls fs].
    + destruct (IH node_id (args ++ [name +:+ ": " +:+ repr l]) st Hwf Hid)
        as (st' & Hrun & Hw).
      exists st'. split; [|exact Hw].
      rewrite Hrun, <-(assoc_L (++)). reflexivity.
    + destruct (Hx (Some node_id) ("." +:+ name) st Hwf Hid) as (st1 & Hrun1 & Hw1).
      destruct (IH node_id args st1) as (st2 & Hrun2 & Hw2);
        [apply Hw1 | destruct Hw1 as (_ & Hlen & _); lia |].
      exists st2. split; [rewrite Hrun1; exact Hrun2|].
      rewrite length_app, seq_app.
      replace (length (graph st) + length (targets skip_fn (PyList ys)))
        with (length (graph st1)) by (destruct Hw1 as (_ & Hlen & _); lia).
      eapply walked_trans; eassumption.
    + destruct (Hx (Some node_id) ("." +:+ name) st Hwf Hid) as (st1 & Hrun1 & Hw1).
      destruct (IH node_id args st1) as (st2 & Hrun2 & Hw2);
        [apply Hw1 | destruct Hw1 as (_ & Hlen & _); lia |].
      exists st2. split; [rewrite Hrun1; exact Hrun2|].
      rewrite length_app, seq_app.
      replace (length (graph st) + length (targets skip_fn (PyAST cls fs)))
        with (length (graph st1)) by (destruct Hw1 as (_ & Hlen & _); lia).
      eapply walked_trans; eassumption.
Qed.

Lemma wf_set_node_label st n s :
  wf st → n < length (graph st) → wf (set_node_label n s st).
Proof.
  intros Hwf Hn. split; simpl; try apply Hwf.
  intros k Hk. rewrite dict_get_set_ne by lia. apply (wf_labels _ Hwf k Hk).
Qed.

Lemma new_children_cons parent_id n (node : pyobj) ts :
  new_children parent_id n (node :: ts)
  = link_child parent_id n ++ seq (S n) (length ts).
Proof. destruct parent_id; reflexivity. Qed.

(** Repackaging: the node itself, then what was visited below it. *)
Lemma walked_node parent_id node ts st st1 st2 :
  wf st2 →
  length (graph st1) = S (length (graph st)) →
  length (graph st2) = length (graph st1) + length ts →
  (∀ k, k < length (graph st) →
        dict_get k (node_labels st2) = dict_get k (node_labels st)) →
  dict_get (length (graph st)) (node_labels st2) = label_of skip_fn node →
  (∀ i v, ts !! i = Some v →
          dict_get (length (graph st1) + i) (node_labels st2) = label_of skip_fn v) →
  children (graph st2) ≡ₚ
    (children (graph st) ++ link_child parent_id (length (graph st)))
      ++ seq (length (graph st1)) (length ts) →
  walked skip_fn (new_children parent_id (length (graph st)) (node :: ts)) (node :: ts) st st2.
Proof.
  intros Hwf Hlen1 Hlen2 Hfr Hself Hlab Hch.
  split; [assumption|]. split; [simpl; lia|]. split; [assumption|]. split.
  - intros [|i] v Hi; simpl in Hi.
    + injection Hi as <-. rewrite Nat.add_0_r. exact Hself.
    + rewrite <-(Hlab i v Hi). f_equal. lia.
  - rewrite new_children_cons, Hch, Hlen1, (assoc_L (++)). reflexivity.
Qed.

Theorem walk_node_spec node : walk_node_ok skip_fn node.
Proof.
  induction node as [l|xs IH|cls fields IH] using pyobj_ind;
    intros parent_id edge_label st Hwf Hp; rewrite walk_node_eq;
    destruct (enter_spec parent_id edge_label st Hwf Hp)
      as (st1 & Hlink & Hwf1 & Hlen1 & Hnl1 & Hch1);
    rewrite Hlink; simpl.
  - exists st1. split; [reflexivity|].
    apply (walked_node parent_id (Leaf l) [] st st1 st1); simpl; try assumption.
    + lia.
    + intros k _. rewrite Hnl1. reflexivity.
    + rewrite Hnl1. apply (wf_labels _ Hwf). lia.
    + intros i v [=].
    + rewrite app_nil_r. exact Hch1.
  - assert (Hwf1' : wf (set_node_label (length (graph st)) "list" st1))
      by (apply wf_set_node_label; [assumption | lia]).
    destruct (walk_items_spec xs IH (length (graph st)) 0 _ Hwf1')
      as (st2 & Hrun & Hwf2 & Hlen2 & Hfr2 & Hlab2 & Hch2); [simpl; lia|].
    simpl in Hlen2, Hfr2, Hlab2, Hch2.
    exists st2. split; [exact Hrun|].
    apply (walked_node parent_id (PyList xs) _ st st1 st2); try assumption.
    + intros k Hk. rewrite Hfr2 by lia. rewrite dict_get_set_ne by lia.
      rewrite Hnl1. reflexivity.
    + rewrite Hfr2 by lia. apply dict_get_set_eq.
    + rewrite Hch2, Hch1. reflexivity.
  - destruct (walk_fields_spec fields IH (length (graph st)) [] st1 Hwf1)
      as (st2 & Hrun & Hwf2 & Hlen2 & Hfr2 & Hlab2 & Hch2); [lia|].
    rewrite Hrun. simpl. eexists. split; [reflexivity|].
    apply (walked_node parent_id (PyAST cls fields) _ st st1); simpl; try assumption.
    + apply wf_set_node_label; [assumption | lia].
    + intros k Hk. rewrite dict_get_set_ne by lia. rewrite Hfr2 by lia.
      rewrite Hnl1. reflexivity.
    + apply dict_get_set_eq.
    + intros i v Hi. rewrite dict_get_set_ne by lia. apply Hlab2, Hi.
    + rewrite Hch2, Hch1. reflexivity.
Qed.
End walk_spec.

(** ** The serializer on a tree with a leaf as traversal target *)

(** C1: the serializer completes without error on every tree, leaves
    inside sequences and a leaf root included.  The code does not: it
    raises [KeyError] on the tree of [global x] (whose [names] field is a
    list of strings), on any list holding one leaf, and on any leaf root.
    [walk_node] gives an id to every value it is called on but stores a
    label only for [ast.AST] and [list] values, and [graph_to_dot] looks
    up [node_labels[n]] for every id. *)
Theorem leaf_target_raises :
  _to_dot_from_ast skip global_x None = Raise KeyError ∧
  (∀ skip_fn l style, _to_dot_from_ast skip_fn (PyList [Leaf l]) style = Raise KeyError) ∧
  (∀ skip_fn l style, _to_dot_from_ast skip_fn (Leaf l) style = Raise KeyError).
Proof.
  split; [vm_compute; reflexivity|]. split; intros; reflexivity.
Qed.

(** C2: no graph node is created for a leaf reached as a traversal target.
    The code does create one: line 108 runs before the [match], so a leaf
    root becomes node 0, a leaf inside a list becomes a node with an edge
    [[i]] from the list, and the string of [global x] becomes node 4 with
    the edge 3 -> 4. *)
Theorem leaf_target_gets_node :
  (∀ skip_fn l,
     walk_node skip_fn None (Leaf l) "" empty_state
     = Ok {| graph := [(0, [])]; node_labels := []; edge_labels := [] |}) ∧
  (∀ skip_fn l,
     walk_node skip_fn None (PyList [Leaf l]) "" empty_state
     = Ok {| graph := [(0, [1]); (1, [])];
             node_labels := [(0, "list")];
             edge_labels := [((0, 1), "[0]")] |}) ∧
  walk_node skip None global_x "" empty_state
  = Ok {| graph := [(0, [1]); (1, [2]); (2, [3]); (3, [4]); (4, [])];
          node_labels := [(1, "list"); (3, "list"); (2, "Global"); (0, "Module")];
          edge_labels := [((0, 1), ".body"); ((1, 2), "[0]");
                          ((2, 3), ".names"); ((3, 4), "[0]")] |}.
Proof.
  split; [intros; reflexivity|]. split; [intros; reflexivity|].
  vm_compute. reflexivity.
Qed.

(** ** The scenario [2 + 2] *)

(** C3: with the default [skip] and [style=''], the tree of [2 + 2] gives
    exactly the seven nodes Module, list, Expr, BinOp, Constant, Add,
    Constant with ids 0 to 6, the six edges [.body], [[0]], [.value],
    [.left], [.op], [.right] towards nodes 1 to 6 in this order, and the
    label [Constant\nvalue: 2] on both constants; the output text is
    [two_plus_two_dot]. *)
Theorem two_plus_two_serialized :
  walk_node skip None two_plus_two "" empty_state
  = Ok {| graph := [(0, [1]); (1, [2]); (2, [3]); (3, [4; 5; 6]);
                    (4, []); (5, []); (6, [])];
          node_labels := [(1, "list"); (4, "Constant\nvalue: 2"); (5, "Add");
                          (6, "Constant\nvalue: 2"); (3, "BinOp"); (2, "Expr");
                          (0, "Module")];
          edge_labels := [((0, 1), ".body"); ((1, 2), "[0]"); ((2, 3), ".value");
                          ((3, 4), ".left"); ((3, 5), ".op"); ((3, 6), ".right")] |} ∧
  _to_dot_from_ast skip two_plus_two (Some "") = Ok two_plus_two_dot.
Proof. split; vm_compute; reflexivity. Qed.

(** ** The default skip predicate *)

Lemma leaf_args_elem skip_fn name l fields :
  (name, Leaf l) ∈ fields → skip_fn name (Leaf l) = false →
  (name +:+ ": " +:+ repr l) ∈ leaf_args skip_fn fields.
Proof.
  intros Hin Hkeep. induction fields as [|[name' value'] fields IH].
  - apply elem_of_nil in Hin as [].
  - apply elem_of_cons in Hin as [[= <- <-]|Hin]; simpl.
    + rewrite Hkeep. apply list_elem_of_here.
    + specialize (IH Hin). destruct (skip_fn name' value'); [assumption|].
      destruct value'; [apply list_elem_of_further| |]; assumption.
Qed.

(** C8: the default [skip] drops a field exactly when its name is not
    [value] and its value is [[]] or [None]; and wherever the walk meets a
    node with a field [value] holding [None], the field is kept: the label
    stored for that node has the fragment [value: None]. *)
Theorem skip_keeps_value :
  (∀ name value,
     skip name value = true ↔
     name ≠ "value" ∧ (value = PyList [] ∨ value = Leaf LNone)) ∧
  (∀ cls fields parent_id edge_label st,
     wf st → parent_ok parent_id st → ("value", Leaf LNone) ∈ fields →
     ∃ st' args,
       walk_node skip parent_id (PyAST cls fields) edge_label st = Ok st' ∧
       "value: None" ∈ args ∧
       dict_get (length (graph st)) (node_labels st')
       = Some (str_join "\n" (cls :: args))).
Proof.
  split.
  - intros name value. unfold skip.
    rewrite andb_true_iff, negb_true_iff, String.eqb_neq, orb_true_iff.
    apply and_iff_compat_l. unfold is_empty_list, is_none. split.
    + intros [Hv|Hv]; [left | right].
      * destruct value as [|[|]|]; congruence.
      * destruct value as [[| |]| |]; congruence.
    + intros [->| ->]; auto.
  - intros cls fields parent_id edge_label st Hwf Hp Hin.
    destruct (walk_node_spec skip (PyAST cls fields) parent_id edge_label st Hwf Hp)
      as (st' & Hrun & _ & _ & _ & Hlab & _).
    exists st', (leaf_args skip fields). split; [exact Hrun|]. split.
    + apply (leaf_args_elem skip "value" LNone fields Hin). reflexivity.
    + specialize (Hlab 0 (PyAST cls fields) eq_refl).
      rewrite Nat.add_0_r in Hlab. exact Hlab.
Qed.

Lemma skip_keeps_value_witness :
  ∃ st' args,
    walk_node skip None constant_none "" empty_state = Ok st' ∧
    "value: None" ∈ args ∧
    dict_get 0 (node_labels st') = Some (str_join "\n" ("Constant" :: args)).
Proof.
  apply (proj2 skip_keeps_value "Constant"
           [("value", Leaf LNone); ("kind", Leaf LNone)] None "" empty_state).
  - apply wf_empty.
  - exact I.
  - apply list_elem_of_here.
Defined.

(** ** The sizing directive *)

(** C9, as the code has it: with an option counting as given when it is
    neither [None] nor [0], the sizing directive is [w,h] when both width
    and height are given, [w] when only the width is, [100,h] when only
    the height is, and is left out when neither is; an emitted directive
    ends in [!] exactly when [force_fit] is true. *)
Theorem size_attr_spec (force_fit : bool) :
  (∀ w h, w ≠ 0%Z → h ≠ 0%Z →
     size_attr (Some w) (Some h) force_fit
     = " size=" +:+ quoted (pretty w +:+ "," +:+ pretty h +:+ mandatory force_fit)) ∧
  (∀ w height_in, w ≠ 0%Z → absent height_in →
     size_attr (Some w) height_in force_fit
     = " size=" +:+ quoted (pretty w +:+ mandatory force_fit)) ∧
  (∀ width_in h, absent width_in → h ≠ 0%Z →
     size_attr width_in (Some h) force_fit
     = " size=" +:+ quoted ("100," +:+ pretty h +:+ mandatory force_fit)) ∧
  (∀ width_in height_in, absent width_in → absent height_in →
     size_attr width_in height_in force_fit = "").
Proof.
  unfold size_attr, absent, truthy.
  split; [|split; [|split]].
  - intros w h Hw Hh. apply Z.eqb_neq in Hw, Hh. rewrite Hw, Hh. reflexivity.
  - intros w h Hw Hh. apply Z.eqb_neq in Hw. rewrite Hw.
    destruct Hh as [-> | ->]; reflexivity.
  - intros w h Hw Hh. apply Z.eqb_neq in Hh. rewrite Hh.
    destruct Hw as [-> | ->]; reflexivity.
  - intros w h [-> | ->] [-> | ->]; reflexivity.
Qed.

Lemma size_attr_spec_witness :
  size_attr (Some 4%Z) (Some 3%Z) true = " size=" +:+ quoted "4,3!" ∧
  size_attr (Some 4%Z) None false = " size=" +:+ quoted "4" ∧
  size_attr None (Some 3%Z) true = " size=" +:+ quoted "100,3!" ∧
  size_attr None None true = "".
Proof.
  split; [|split; [|split]].
  - apply (proj1 (size_attr_spec true) 4%Z 3%Z); lia.
  - apply (proj1 (proj2 (size_attr_spec false)) 4%Z None); [lia | left; reflexivity].
  - apply (proj1 (proj2 (proj2 (size_attr_spec true))) None 3%Z); [left; reflexivity | lia].
  - apply (proj2 (proj2 (proj2 (size_attr_spec true))) None None); left; reflexivity.
Defined.

(** C9 as stated fails: a width of [0] is given, yet line 33 takes it for
    missing and the directive becomes [100,5!]. *)
Lemma size_attr_zero_width :
  ¬ (∀ w h force_fit,
       size_attr (Some w) (Some h) force_fit
       = " size=" +:+ quoted (pretty w +:+ "," +:+ pretty h +:+ mandatory force_fit)).
Proof. intros H. specialize (H 0%Z 5%Z true). vm_compute in H. discriminate H. Qed.

(** ** The walk from the root *)

Lemma walk_root_spec skip_fn root :
  ∃ st, walk_node skip_fn None root "" empty_state = Ok st ∧
    walked skip_fn (tail (seq 0 (length (targets skip_fn root))))
           (targets skip_fn root) empty_state st.
Proof. apply (walk_node_spec skip_fn root None "" empty_state wf_empty I). Qed.

Lemma targets_head skip_fn node :
  ∃ ts, targets skip_fn node = node :: ts.
Proof. destruct node; simpl; eauto. Qed.

Lemma count_occ_seq a m k :
  count_occ Nat.eq_dec (seq a m) k = if bool_decide (a ≤ k < a + m) then 1 else 0.
Proof.
  revert a. induction m as [|m IH]; intros a; simpl.
  - rewrite bool_decide_eq_false_2 by lia. reflexivity.
  - rewrite IH. destruct (Nat.eq_dec a k) as [->|Hne].
    + rewrite bool_decide_eq_false_2, bool_decide_eq_true_2 by lia. reflexivity.
    + destruct (bool_decide (S a ≤ k < S a + m)) eqn:Hk.
      * apply bool_decide_eq_true in Hk. rewrite bool_decide_eq_true_2 by lia. reflexivity.
      * apply bool_decide_eq_false in Hk. rewrite bool_decide_eq_false_2 by lia. reflexivity.
Qed.

(** C5: in the graph one run builds, for every tree, every id other than 0
    is listed as a child exactly once over all adjacency lists, and 0 is
    listed nowhere. *)
Theorem single_parent skip_fn root :
  ∃ st, walk_node skip_fn None root "" empty_state = Ok st ∧
    (∀ k, k ∈ dict_keys (graph st) → k ≠ 0 →
          count_occ Nat.eq_dec (children (graph st)) k = 1) ∧
    count_occ Nat.eq_dec (children (graph st)) 0 = 0.
Proof.
  destruct (walk_root_spec skip_fn root) as (st & Hrun & Hwf & Hlen & _ & _ & Hch).
  exists st. split; [exact Hrun|].
  destruct (targets_head skip_fn root) as [ts Hts].
  rewrite Hts in Hch, Hlen. simpl in Hch, Hlen.
  assert (Hcount : ∀ k, count_occ Nat.eq_dec (children (graph st)) k
                        = if bool_decide (1 ≤ k < 1 + length ts) then 1 else 0).
  { intros k. rewrite <-count_occ_seq. revert k.
    apply (Permutation_count_occ Nat.eq_dec). exact Hch. }
  split.
  - intros k Hk Hk0. rewrite (wf_keys _ Hwf), elem_of_seq, Hlen in Hk.
    rewrite Hcount, bool_decide_eq_true_2 by lia. reflexivity.
  - rewrite Hcount, bool_decide_eq_false_2 by lia. reflexivity.
Qed.

(** C6: ids are given out consecutively in the order of the depth-first
    pre-order walk.  The keys of [graph], in insertion order, are 0, 1, 2,
    ... up to the number of values visited; the root is visited first and
    so is node 0; and node [i] carries the label of the [i]-th value
    visited. *)
Theorem ids_follow_visit_order skip_fn root :
  ∃ st, walk_node skip_fn None root "" empty_state = Ok st ∧
    dict_keys (graph st) = seq 0 (length (targets skip_fn root)) ∧
    targets skip_fn root !! 0 = Some root ∧
    (∀ i v, targets skip_fn root !! i = Some v →
            dict_get i (node_labels st) = label_of skip_fn v).
Proof.
  destruct (walk_root_spec skip_fn root) as (st & Hrun & Hwf & Hlen & _ & Hlab & _).
  exists st. split; [exact Hrun|]. split; [|split].
  - rewrite (wf_keys _ Hwf), Hlen. reflexivity.
  - destruct (targets_head skip_fn root) as [ts ->]. reflexivity.
  - intros i v Hi. apply (Hlab i v Hi).
Qed.

(** ** The order of the output lines *)

Lemma elem_of_edges (g : graph_t) e : e ∈ edges g → e.1 ∈ dict_keys g.
Proof.
  unfold dict_keys. induction g as [|[src l] g IH].
  - intros []%elem_of_nil.
  - rewrite edges_cons, elem_of_app. intros [He|He].
    + apply list_elem_of_In, in_map_iff in He as (c & <- & _). apply list_elem_of_here.
    + apply list_elem_of_further, IH, He.
Qed.

Lemma StronglySorted_pairs src (l : list nat) :
  StronglySorted lt l → StronglySorted edge_lt (map (pair src) l).
Proof.
  induction 1 as [|c l _ IH Hc]; simpl; constructor; [exact IH|].
  apply Forall_forall. intros e He.
  apply list_elem_of_In, in_map_iff in He as (c' & <- & Hc').
  right. split; [reflexivity|]. simpl.
  rewrite Forall_forall in Hc. apply Hc, list_elem_of_In, Hc'.
Qed.

Lemma edges_sorted (g : graph_t) :
  StronglySorted lt (dict_keys g) →
  Forall (λ kv, StronglySorted lt kv.2) g →
  StronglySorted edge_lt (edges g).
Proof.
  unfold dict_keys. induction g as [|[src l] g IH]; intros Hkeys Hadj.
  - constructor.
  - rewrite fmap_cons in Hkeys. apply StronglySorted_cons in Hkeys as [Hsrc Hkeys].
    apply Forall_cons in Hadj as [Hl Hadj]. rewrite edges_cons.
    apply StronglySorted_app_2.
    + intros e1 e2 He1 He2.
      apply list_elem_of_In, in_map_iff in He1 as (c & <- & _).
      left. simpl. rewrite Forall_forall in Hsrc. apply Hsrc, elem_of_edges, He2.
    + apply StronglySorted_pairs, Hl.
    + apply IH; assumption.
Qed.

Lemma StronglySorted_seq a m : StronglySorted lt (seq a m).
Proof.
  revert a. induction m as [|m IH]; intros a; simpl; constructor; [apply IH|].
  apply Forall_forall. intros k Hk. apply elem_of_seq in Hk. lia.
Qed.

Lemma mapM_Forall2 {A B} (f : A → result B) (l : list A) :
  Forall (λ x, ∃ y, f x = Ok y) l →
  ∃ ys, mapM f l = Ok ys ∧ Forall2 (λ x y, f x = Ok y) l ys.
Proof.
  induction 1 as [|x l [y Hy] _ (ys & Hys & Hall)]; simpl.
  - exists []. split; [reflexivity | constructor].
  - exists (y :: ys). split.
    + rewrite Hy. simpl. rewrite Hys. reflexivity.
    + constructor; assumption.
Qed.

Lemma label_of_composite skip_fn v :
  is_composite v = true → ∃ s, label_of skip_fn v = Some s.
Proof. destruct v; simpl; [discriminate | eauto | eauto]. Qed.

(** C4, as the code has it: when every value visited is an [ast.AST] or a
    [list], the output is the header, then one line per node for the ids
    0, 1, 2, ... in this order, then one line per edge, then the closing
    brace; the edge lines follow the adjacency lists, so they are ordered
    by parent id and, under one parent, by child id. *)
Theorem dot_line_order skip_fn root style :
  forallb is_composite (targets skip_fn root) = true →
  ∃ st node_lines edge_lines,
    walk_node skip_fn None root "" empty_state = Ok st ∧
    Forall2 (λ n line, node_line (node_labels st) n = Ok line)
            (seq 0 (length (graph st))) node_lines ∧
    Forall2 (λ e line, edge_line (edge_labels st) e = Ok line)
            (edges (graph st)) edge_lines ∧
    StronglySorted edge_lt (edges (graph st)) ∧
    _to_dot_from_ast skip_fn root style
    = Ok (str_join (chr newline)
            (("digraph G {" +:+ style_text style)
               :: node_lines ++ edge_lines ++ ["}"])).
Proof.
  intros Hcomp.
  destruct (walk_root_spec skip_fn root) as (st & Hrun & Hwf & Hlen & _ & Hlab & _).
  simpl in Hlen, Hlab.
  destruct (mapM_Forall2 (node_line (node_labels st)) (seq 0 (length (graph st))))
    as (node_lines & Hnodes & Hn2).
  { apply Forall_forall. intros n Hn. apply elem_of_seq in Hn.
    destruct (lookup_lt_is_Some_2 (targets skip_fn root) n) as [v Hv]; [lia|].
    rewrite forallb_forall in Hcomp.
    destruct (label_of_composite skip_fn v) as [s Hs].
    { apply Hcomp, list_elem_of_In, (list_elem_of_lookup_2 _ n), Hv. }
    unfold node_line, getitem. rewrite (Hlab n v Hv), Hs. simpl. eauto. }
  destruct (mapM_Forall2 (edge_line (edge_labels st)) (edges (graph st)))
    as (edge_lines & Hedges & He2).
  { eapply Forall_impl; [apply (wf_edges _ Hwf)|]. simpl. intros e [s Hs].
    unfold edge_line, getitem. rewrite Hs. simpl. eauto. }
  exists st, node_lines, edge_lines.
  split; [exact Hrun|]. split; [exact Hn2|]. split; [exact He2|]. split.
  - apply edges_sorted.
    + rewrite (wf_keys _ Hwf). apply StronglySorted_seq.
    + eapply Forall_impl; [apply (wf_sorted _ Hwf)|]. simpl. intros kv [Hs _]. exact Hs.
  - unfold _to_dot_from_ast. rewrite Hrun. simpl. unfold graph_to_dot.
    rewrite (wf_keys _ Hwf), Hnodes. simpl. rewrite Hedges. reflexivity.
Qed.

Lemma dot_line_order_witness :
  ∃ st node_lines edge_lines,
    walk_node skip None two_plus_two "" empty_state = Ok st ∧
    Forall2 (λ n line, node_line (node_labels st) n = Ok line)
            (seq 0 (length (graph st))) node_lines ∧
    Forall2 (λ e line, edge_line (edge_labels st) e = Ok line)
            (edges (graph st)) edge_lines ∧
    StronglySorted edge_lt (edges (graph st)) ∧
    _to_dot_from_ast skip two_plus_two (Some "")
    = Ok (str_join (chr newline)
            (("digraph G {" +:+ "") :: node_lines ++ edge_lines ++ ["}"])).
Proof. apply (dot_line_order skip two_plus_two (Some "")). reflexivity. Defined.

(** C4 as stated fails on the tree of [1 + 2 + 3]: the edge from the outer
    [BinOp] to its operator is recorded after the three edges of the inner
    [BinOp], yet printed before them. *)
Lemma edge_lines_not_in_recording_order :
  ∃ st, walk_node skip None one_plus_two_plus_three "" empty_state = Ok st ∧
    dict_keys (edge_labels st)
    = [(0, 1); (1, 2); (2, 3); (3, 4); (4, 5); (4, 6); (4, 7); (3, 8); (3, 9)] ∧
    edges (graph st)
    = [(0, 1); (1, 2); (2, 3); (3, 4); (3, 8); (3, 9); (4, 5); (4, 6); (4, 7)] ∧
    _to_dot_from_ast skip one_plus_two_plus_three (Some "")
    ≠ dot_in_recording_order st "".
Proof.
  eexists. split; [vm_compute; reflexivity|].
  split; [reflexivity|]. split; [reflexivity|].
  vm_compute. discriminate.
Qed.

(** ** Skipped fields *)

Lemma walk_fields_cons skip_fn node_id name value fields args st :
  walk_fields skip_fn node_id ((name, value) :: fields) args st =
  if skip_fn name value then walk_fields skip_fn node_id fields args st
  else match value with
       | Leaf l =>
           walk_fields skip_fn node_id fields (args ++ [name +:+ ": " +:+ repr l]) st
       | _ =>
           st ← walk_node skip_fn (Some node_id) value ("." +:+ name) st;
           walk_fields skip_fn node_id fields args st
       end.
Proof. reflexivity. Qed.

Lemma walk_items_cons skip_fn node_id i x xs st :
  walk_items skip_fn node_id i (x :: xs) st =
  (st ← walk_node skip_fn (Some node_id) x ("[" +:+ pretty i +:+ "]") st;
   walk_items skip_fn node_id (S i) xs st).
Proof. reflexivity. Qed.

Lemma walk_node_prune skip_fn node :
  ∀ parent_id edge_label st,
    walk_node skip_fn parent_id node edge_label st
    = walk_node no_skip parent_id (prune skip_fn node) edge_label st.
Proof.
  induction node as [l|xs IH|cls fields IH] using pyobj_ind;
    intros parent_id edge_label st; rewrite !walk_node_eq; simpl prune; cbv beta iota.
  - reflexivity.
  - destruct (link parent_id (length (graph st)) edge_label (alloc st)) as [st1|e];
      [simpl|reflexivity].
    generalize (set_node_label (length (graph st)) "list" st1).
    generalize 0. generalize (length (graph st)).
    induction IH as [|x xs Hx _ IHxs]; intros node_id i st2; [reflexivity|].
    simpl map. rewrite !walk_items_cons, Hx.
    destruct (walk_node _ _ _ _ _) as [st3|e]; [simpl; apply IHxs | reflexivity].
  - destruct (link parent_id (length (graph st)) edge_label (alloc st)) as [st1|e];
      [simpl|reflexivity].
    assert (Hfields : ∀ node_id args st2,
      walk_fields skip_fn node_id fields args st2
      = walk_fields no_skip node_id
          (flat_map (λ '(name, value),
             if skip_fn name value then [] else [(name, prune skip_fn value)]) fields)
          args st2).
    { induction IH as [|[name value] fields Hx _ IHfs]; intros node_id args st2;
        [reflexivity|].
      simpl flat_map. rewrite walk_fields_cons.
      destruct (skip_fn name value); [apply IHfs|].
      simpl app. rewrite walk_fields_cons. unfold no_skip at 1. simpl in Hx.
      destruct value as [l|ys|cls' fs]; simpl prune.
      - apply IHfs.
      - rewrite (Hx (Some node_id)). simpl prune.
        destruct (walk_node _ _ _ _ _) as [st3|e]; [simpl; apply IHfs | reflexivity].
      - rewrite (Hx (Some node_id)). simpl prune.
        destruct (walk_node _ _ _ _ _) as [st3|e]; [simpl; apply IHfs | reflexivity]. }
    rewrite Hfields. reflexivity.
Qed.

(** C7: whatever the predicate and the tree, a field the predicate skips
    gives no node, no edge and no label fragment.  The walk and the output
    are those of the tree from which every skipped field has been removed,
    walked with a predicate that skips nothing. *)
Theorem skipped_fields_leave_no_trace skip_fn root style :
  (∀ parent_id edge_label st,
     walk_node skip_fn parent_id root edge_label st
     = walk_node no_skip parent_id (prune skip_fn root) edge_label st) ∧
  _to_dot_from_ast skip_fn root style
  = _to_dot_from_ast no_skip (prune skip_fn root) style.
Proof.
  split; [apply walk_node_prune|].
  unfold _to_dot_from_ast. rewrite walk_node_prune. reflexivity.
Qed.

(** ** Edge labels *)




Lemma bind_Ok_inv {A B} (m : result A) (f : A → result B) b :
  (m ≫= f) = Ok b → ∃ a, m = Ok a ∧ f a = Ok b.
Proof. destruct m as [a|e]; simpl; [eauto | discriminate]. Qed.

Section edge_label_invariant.
Variable skip_fn : string → pyobj → bool.
Variable Q : string → Prop.
Hypothesis Q_index : ∀ i : nat, Q ("[" +:+ pretty i +:+ "]").




End edge_label_invariant.







(** * Further properties *)

(** ** When the printer raises *)

Lemma node_line_raise nl n : node_line nl n = Raise KeyError ↔ dict_get n nl = None.
Proof.
  unfold node_line, getitem. destruct (dict_get n nl); simpl; split; intros [=]; reflexivity.
Qed.

Lemma edge_line_raise el e : edge_line el e = Raise KeyError ↔ dict_get e el = None.
Proof.
  unfold edge_line, getitem. destruct (dict_get e el); simpl; split; intros [=]; reflexivity.
Qed.

Lemma result_cases {A} (r : result A) : r = Raise KeyError ∨ ∃ a, r = Ok a.
Proof. destruct r as [a|[]]; eauto. Qed.

Lemma mapM_raise {A B} (f : A → result B) (l : list A) :
  mapM f l = Raise KeyError ↔ ∃ x, x ∈ l ∧ f x = Raise KeyError.
Proof.
  induction l as [|x l IH]; simpl.
  - split; [discriminate | intros (x & []%elem_of_nil & _)].
  - destruct (result_cases (f x)) as [Hx|[y Hy]].
    + rewrite Hx. simpl. split; [|reflexivity].
      intros _. exists x. split; [apply list_elem_of_here | exact Hx].
    + rewrite Hy. simpl. destruct (result_cases (mapM f l)) as [Hl|[ys Hys]].
      * rewrite Hl. simpl. split; [|reflexivity].
        intros _. apply IH in Hl as (x' & Hin & Hx'). exists x'.
        split; [apply list_elem_of_further, Hin | exact Hx'].
      * rewrite Hys. simpl. split; [discriminate|].
        intros (x' & [->|Hin]%elem_of_cons & Hx'); [congruence|].
        assert (mapM f l = Raise KeyError) by (apply IH; eauto). congruence.
Qed.

(** X2: [graph_to_dot] raises [KeyError] exactly when some key of [graph]
    has no entry in [node_labels] or some edge of [graph] has no entry in
    [edge_labels]; otherwise it returns a text. *)
Theorem graph_to_dot_raises_iff (g : graph_t) (nl : node_labels_t)
    (el : edge_labels_t) (style : string) :
  (graph_to_dot g nl el style = Raise KeyError ↔
   (∃ n, n ∈ dict_keys g ∧ dict_get n nl = None) ∨
   (∃ e, e ∈ edges g ∧ dict_get e el = None)) ∧
  (graph_to_dot g nl el style = Raise KeyError ∨
   ∃ out, graph_to_dot g nl el style = Ok out).
Proof.
  split; [|apply result_cases].
  unfold graph_to_dot.
  destruct (result_cases (mapM (node_line nl) (dict_keys g))) as [Hn|[nls Hn]].
  - rewrite Hn. simpl. split; [|reflexivity]. intros _. left.
    apply mapM_raise in Hn as (n & Hin & Hn). exists n.
    split; [exact Hin | apply node_line_raise, Hn].
  - rewrite Hn. simpl.
    destruct (result_cases (mapM (edge_line el) (edges g))) as [He|[els He]].
    + rewrite He. simpl. split; [|reflexivity]. intros _. right.
      apply mapM_raise in He as (e & Hin & He). exists e.
      split; [exact Hin | apply edge_line_raise, He].
    + rewrite He. simpl. split; [discriminate|].
      intros [(n & Hin & Hnone)|(e & Hin & Hnone)].
      * assert (mapM (node_line nl) (dict_keys g) = Raise KeyError); [|congruence].
        apply mapM_raise. exists n. split; [exact Hin | apply node_line_raise, Hnone].
      * assert (mapM (edge_line el) (edges g) = Raise KeyError); [|congruence].
        apply mapM_raise. exists e. split; [exact Hin | apply edge_line_raise, Hnone].
Qed.

(** ** When the printer raises on the state of a walk *)

Lemma walk_node_run skip_fn node parent_id edge_label st st' :
  wf st → parent_ok parent_id st →
  walk_node skip_fn parent_id node edge_label st = Ok st' →
  walked skip_fn (new_children parent_id (length (graph st)) (targets skip_fn node))
         (targets skip_fn node) st st'.
Proof.
  intros Hwf Hp Hrun.
  destruct (walk_node_spec skip_fn node parent_id edge_label st Hwf Hp)
    as (st2 & Hrun2 & Hw).
  rewrite Hrun in Hrun2. injection Hrun2 as <-. exact Hw.
Qed.

Lemma walk_root_run skip_fn root st :
  walk_node skip_fn None root "" empty_state = Ok st →
  walked skip_fn (tail (seq 0 (length (targets skip_fn root))))
         (targets skip_fn root) empty_state st.
Proof. apply (walk_node_run skip_fn root None "" empty_state st wf_empty I). Qed.

Lemma printer_ok skip_fn root style st :
  walk_node skip_fn None root "" empty_state = Ok st →
  Forall (λ v, is_composite v = true) (targets skip_fn root) →
  ∃ out, graph_to_dot (graph st) (node_labels st) (edge_labels st) style = Ok out.
Proof.
  intros Hrun Hcomp.
  destruct (walk_root_run skip_fn root st Hrun) as (Hwf & Hlen & _ & Hlab & _).
  simpl in Hlen, Hlab.
  destruct (result_cases (graph_to_dot (graph st) (node_labels st) (edge_labels st)
                            style)) as [Hraise|Hok]; [|exact Hok].
  exfalso. unfold graph_to_dot in Hraise.
  destruct (result_cases (mapM (node_line (node_labels st)) (dict_keys (graph st))))
    as [Hn|[nls Hn]].
  - apply mapM_raise in Hn as (n & Hin & Hn). apply node_line_raise in Hn.
    rewrite (wf_keys _ Hwf), elem_of_seq in Hin.
    destruct (lookup_lt_is_Some_2 (targets skip_fn root) n) as [v Hv]; [lia|].
    rewrite (Hlab n v Hv) in Hn. rewrite Forall_forall in Hcomp.
    destruct (label_of_composite skip_fn v) as [s Hs]; [|congruence].
    apply Hcomp, (list_elem_of_lookup_2 _ n), Hv.
  - rewrite Hn in Hraise. simpl in Hraise.
    destruct (result_cases (mapM (edge_line (edge_labels st)) (edges (graph st))))
      as [He|[els He]].
    + apply mapM_raise in He as (e & Hin & He). apply edge_line_raise in He.
      pose proof (wf_edges _ Hwf) as Hedges. rewrite Forall_forall in Hedges.
      destruct (Hedges e Hin) as [s Hs]. congruence.
    + rewrite He in Hraise. discriminate Hraise.
Qed.

Lemma printer_raises skip_fn root style st v :
  walk_node skip_fn None root "" empty_state = Ok st →
  v ∈ targets skip_fn root → is_composite v = false →
  graph_to_dot (graph st) (node_labels st) (edge_labels st) style = Raise KeyError.
Proof.
  intros Hrun Hin Hv.
  destruct (walk_root_run skip_fn root st Hrun) as (Hwf & Hlen & _ & Hlab & _).
  simpl in Hlen, Hlab. unfold graph_to_dot.
  assert (Hn : mapM (node_line (node_labels st)) (dict_keys (graph st)) = Raise KeyError).
  { apply list_elem_of_lookup in Hin as [i Hi]. apply mapM_raise. exists i. split.
    - rewrite (wf_keys _ Hwf), elem_of_seq, Hlen. apply lookup_lt_Some in Hi. lia.
    - apply node_line_raise. rewrite (Hlab i _ Hi).
      destruct v; [reflexivity | discriminate Hv..]. }
  rewrite Hn. reflexivity.
Qed.

(** X1: whenever the walk of [_to_dot_from_ast] completes, [graph_to_dot]
    on the state it has built raises [KeyError] exactly when the walk was
    called on some leaf, at the root or as an item of a list, and returns a
    text exactly when every value the walk was called on is a node or a
    list. *)
Theorem printer_raises_iff_leaf skip_fn root style st :
  walk_node skip_fn None root "" empty_state = Ok st →
  (graph_to_dot (graph st) (node_labels st) (edge_labels st) style = Raise KeyError ↔
   ∃ l, Leaf l ∈ targets skip_fn root) ∧
  ((∃ out, graph_to_dot (graph st) (node_labels st) (edge_labels st) style = Ok out) ↔
   Forall (λ v, is_composite v = true) (targets skip_fn root)).
Proof.
  intros Hrun.
  assert (Hleaf : ¬ Forall (λ v, is_composite v = true) (targets skip_fn root) →
                  ∃ l, Leaf l ∈ targets skip_fn root).
  { intros Hsome. apply not_Forall_Exists in Hsome; [|intros v; apply _].
    apply Exists_exists in Hsome as (v & Hin & Hv).
    destruct v as [l| |]; [eauto | destruct Hv; reflexivity..]. }
  split; split.
  - intros Hraise.
    destruct (decide (Forall (λ v, is_composite v = true) (targets skip_fn root)))
      as [Hall|Hsome]; [|apply Hleaf, Hsome].
    destruct (printer_ok skip_fn root style st Hrun Hall) as [out Hout]. congruence.
  - intros (l & Hin). apply (printer_raises skip_fn root style st (Leaf l) Hrun Hin).
    reflexivity.
  - intros [out Hout].
    destruct (decide (Forall (λ v, is_composite v = true) (targets skip_fn root)))
      as [Hall|Hsome]; [exact Hall|].
    destruct (Hleaf Hsome) as [l Hin].
    rewrite (printer_raises skip_fn root style st (Leaf l) Hrun Hin eq_refl) in Hout.
    discriminate Hout.
  - apply (printer_ok skip_fn root style st Hrun).
Qed.

Lemma printer_raises_iff_leaf_witness :
  (graph_to_dot (graph global_x_state) (node_labels global_x_state)
                (edge_labels global_x_state) "" = Raise KeyError ↔
   ∃ l, Leaf l ∈ targets skip global_x) ∧
  ((∃ out, graph_to_dot (graph global_x_state) (node_labels global_x_state)
                        (edge_labels global_x_state) "" = Ok out) ↔
   Forall (λ v, is_composite v = true) (targets skip global_x)).
Proof.
  apply (printer_raises_iff_leaf skip global_x "" global_x_state).
  vm_compute. reflexivity.
Defined.

(** ** The style block in the output *)

Lemma string_app_assoc (s1 s2 s3 : string) : (s1 +:+ s2) +:+ s3 = s1 +:+ (s2 +:+ s3).
Proof.
  induction s1 as [|c s1 IH]; [reflexivity|].
  change (String c ((s1 +:+ s2) +:+ s3) = String c (s1 +:+ (s2 +:+ s3))).
  rewrite IH. reflexivity.
Qed.

(** X3: the style block only shows in the header.  For a given tree and
    predicate, either the serializer raises whatever the style, or there is
    one body such that the output is [digraph G {], the style block as
    given (the default one for [None]), and this body. *)
Theorem style_only_in_header skip_fn root :
  (∀ style, _to_dot_from_ast skip_fn root style = Raise KeyError) ∨
  (∃ body, ∀ style,
     _to_dot_from_ast skip_fn root style
     = Ok ("digraph G {" +:+ style_text style +:+ body)).
Proof.
  destruct (walk_root_spec skip_fn root) as (st & Hrun & _).
  unfold _to_dot_from_ast. rewrite Hrun. simpl. unfold graph_to_dot.
  destruct (result_cases (mapM (node_line (node_labels st)) (dict_keys (graph st))))
    as [Hn|[nls Hn]]; rewrite Hn; simpl; [left; reflexivity|].
  destruct (result_cases (mapM (edge_line (edge_labels st)) (edges (graph st))))
    as [He|[els He]]; rewrite He; simpl; [left; reflexivity|].
  right. exists (chr newline +:+ str_join (chr newline) (nls ++ els ++ ["}"])).
  intros style. unfold mret, result_ret, style_text. f_equal.
  destruct (nls ++ els ++ ["}"]) as [|line rest] eqn:Hrest.
  - apply app_eq_nil in Hrest as [_ Hrest].
    apply app_eq_nil in Hrest as [_ Hrest]. discriminate Hrest.
  - apply string_app_assoc.
Qed.

(** ** The font of the style block *)

(** X4: a font name outside [ALLOWED_FONTS] gives the same style block as no
    font name, which is also the block for the default font [Menlo]. *)
Theorem unknown_font_falls_back (o : style_opts) (f : string) :
  f ∉ ALLOWED_FONTS →
  make_style (set_fontname (Some f) o) = make_style (set_fontname None o) ∧
  make_style (set_fontname None o) = make_style (set_fontname (Some DEFAULT_FONT) o).
Proof.
  intros Hf. unfold make_style. simpl.
  rewrite (bool_decide_eq_false_2 _ Hf). split; reflexivity.
Qed.

Lemma unknown_font_falls_back_witness :
  make_style (set_fontname (Some "Comic Sans") default_opts)
  = make_style (set_fontname None default_opts) ∧
  make_style (set_fontname None default_opts)
  = make_style (set_fontname (Some DEFAULT_FONT) default_opts).
Proof.
  apply (unknown_font_falls_back default_opts "Comic Sans").
  apply (bool_decide_unpack _). vm_compute. exact I.
Defined.

(** ** Escaping of node labels *)

Lemma escape_quotes_head s : ∀ s', escape_quotes s ≠ String dquote s'.
Proof.
  intros s'. destruct s as [|c s]; simpl; [discriminate|].
  destruct (Ascii.eqb c dquote) eqn:Hc.
  - discriminate.
  - intros [= -> _]. rewrite Ascii.eqb_refl in Hc. discriminate Hc.
Qed.

(** X5: in an escaped label every double quote comes right after a
    backslash. *)
Theorem escape_quotes_guarded (s : string) (after_backslash : bool) :
  quotes_guarded after_backslash (escape_quotes s) = true.
Proof.
  revert after_backslash. induction s as [|c s IH]; intros b; simpl; [reflexivity|].
  destruct (Ascii.eqb c dquote) eqn:Hc; simpl.
  - apply IH.
  - rewrite Hc. apply IH.
Qed.

(** X6: escaping loses nothing: two labels with the same escaped text are
    the same label. *)
Theorem escape_quotes_inj (s1 s2 : string) :
  escape_quotes s1 = escape_quotes s2 ↔ s1 = s2.
Proof.
  split; [|intros ->; reflexivity]. revert s2. induction s1 as [|c1 s1 IH]; intros [|c2 s2]; simpl.
  - reflexivity.
  - destruct (Ascii.eqb c2 dquote); discriminate.
  - destruct (Ascii.eqb c1 dquote); discriminate.
  - destruct (Ascii.eqb c1 dquote) eqn:H1, (Ascii.eqb c2 dquote) eqn:H2.
    + apply Ascii.eqb_eq in H1, H2. intros [= He]. f_equal; [congruence | auto].
    + intros [= <- He]. symmetry in He. destruct (escape_quotes_head _ _ He).
    + intros [= -> He]. destruct (escape_quotes_head _ _ He).
    + intros [= -> He]. f_equal. auto.
Qed.

(** X7: escaping leaves a label as it is exactly when the label has no
    double quote. *)
Theorem escape_quotes_id_iff (s : string) :
  escape_quotes s = s ↔ has_char dquote s = false.
Proof.
  induction s as [|c s IH]; simpl; [split; reflexivity|].
  destruct (Ascii.eqb c dquote) eqn:Hc; simpl.
  - split; [|discriminate]. intros [= Hbs _].
    apply Ascii.eqb_eq in Hc. subst c. discriminate Hbs.
  - rewrite <-IH. split; [intros [= He]; exact He | intros ->; reflexivity].
Qed.

(** ** More facts about dictionaries and adjacency lists *)

Section dict_more.
Context {K V : Type} `{EqDecision K}.
Implicit Types (d : dict K V) (k : K) (v : V).

Lemma dict_get_app d d' k :
  dict_get k (d ++ d') = match dict_get k d with
                         | Some v => Some v
                         | None => dict_get k d'
                         end.
Proof.
  induction d as [|[k0 v0] d IH]; simpl; [reflexivity|].
  destruct (decide (k0 = k)); [reflexivity | exact IH].
Qed.

Lemma dict_keys_set_Forall (Q : K → Prop) d k v :
  Forall Q (dict_keys d) → Q k → Forall Q (dict_keys (dict_set k v d)).
Proof.
  unfold dict_keys. rewrite !Forall_fmap. intros Hd Hk.
  apply dict_set_Forall; assumption.
Qed.
End dict_more.

Lemma children_of_app k (l1 l2 : list (nat * nat)) :
  children_of k (l1 ++ l2) = children_of k l1 ++ children_of k l2.
Proof. unfold children_of. rewrite filter_app, fmap_app. reflexivity. Qed.

Lemma children_of_none k (keys : list (nat * nat)) :
  Forall (λ e, e.1 ≠ k) keys → children_of k keys = [].
Proof.
  unfold children_of. induction 1 as [|e keys He _ IH]; [reflexivity|].
  rewrite filter_cons_False by exact He. exact IH.
Qed.

Lemma edges_set_append (g : graph_t) p l c :
  dict_get p g = Some l → edges (dict_set p (l ++ [c]) g) ≡ₚ (p, c) :: edges g.
Proof.
  induction g as [|[k0 l0] g IH]; simpl; [discriminate|].
  destruct (decide (k0 = p)) as [->|Hne].
  - intros [= ->]. rewrite !edges_cons, map_app. simpl.
    rewrite <-(assoc_L (++)). simpl. symmetry. apply Permutation_middle.
  - intros Hp. rewrite !edges_cons, (IH Hp). symmetry. apply Permutation_middle.
Qed.

Lemma edges_app (g1 g2 : graph_t) : edges (g1 ++ g2) = edges g1 ++ edges g2.
Proof. unfold edges. apply flat_map_app. Qed.

(** ** What the link to the parent does *)

Lemma link_inv parent_id edge_label st st1 :
  wf st → parent_ok parent_id st →
  link parent_id (length (graph st)) edge_label (alloc st) = Ok st1 →
  wf st1 ∧ length (graph st1) = S (length (graph st)) ∧
  node_labels st1 = node_labels st ∧
  match parent_id with
  | None =>
      graph st1 = graph st ++ [(length (graph st), [])] ∧
      edge_labels st1 = edge_labels st
  | Some p =>
      ∃ l, dict_get p (graph st) = Some l ∧
        graph st1 = dict_set p (l ++ [length (graph st)])
                      (graph st ++ [(length (graph st), [])]) ∧
        edge_labels st1 = dict_set (p, length (graph st)) edge_label (edge_labels st)
  end.
Proof.
  intros Hwf Hp Hlink.
  destruct (enter_spec parent_id edge_label st Hwf Hp) as (st2 & Hlink2 & Hwf2 & Hlen2 & Hnl2 & _).
  rewrite Hlink in Hlink2. injection Hlink2 as <-.
  split; [exact Hwf2|]. split; [exact Hlen2|]. split; [exact Hnl2|].
  pose proof (alloc_graph st Hwf) as Hg.
  assert (Hel : edge_labels (alloc st) = edge_labels st) by reflexivity.
  revert Hlink Hg Hel. generalize (alloc st). intros st0 Hlink Hg Hel.
  unfold link in Hlink. destruct parent_id as [p|].
  - simpl in Hp. destruct (wf_lookup st p Hwf Hp) as [l Hl]. exists l.
    split; [exact Hl|]. unfold getitem in Hlink.
    rewrite Hg, (dict_get_app_l _ _ _ _ Hl) in Hlink. simpl in Hlink.
    injection Hlink as <-. simpl. rewrite Hel. split; reflexivity.
  - injection Hlink as <-. split; [exact Hg | exact Hel].
Qed.

(** ** Properties that every call of the walk preserves *)

Section walk_preserves.
Variable skip_fn : string → pyobj → bool.
Variable I : walk_state → Prop.
Hypothesis I_link : ∀ parent_id edge_label st st1,
  wf st → parent_ok parent_id st → I st →
  link parent_id (length (graph st)) edge_label (alloc st) = Ok st1 → I st1.
Hypothesis I_label : ∀ n s st, I st → I (set_node_label n s st).

Lemma walk_items_preserves xs :
  Forall (preserves skip_fn I) xs →
  ∀ node_id i st st',
    wf st → node_id < length (graph st) → I st →
    walk_items skip_fn node_id i xs st = Ok st' → I st'.
Proof.
  induction 1 as [|x xs Hx _ IH]; intros node_id i st st' Hwf Hid HI.
  - intros [= <-]. exact HI.
  - rewrite walk_items_cons. intros (st1 & Hrun1 & Hrun2)%bind_Ok_inv.
    destruct (walk_node_run _ _ _ _ _ _ Hwf (Hid : parent_ok (Some node_id) st) Hrun1)
      as (Hwf1 & Hlen1 & _).
    apply (IH node_id (S i) st1 st'); [exact Hwf1 | lia | | exact Hrun2].
    apply (Hx (Some node_id) ("[" +:+ pretty i +:+ "]") st st1); assumption.
Qed.

Lemma walk_fields_preserves fields :
  Forall (λ f, preserves skip_fn I f.2) fields →
  ∀ node_id args st r,
    wf st → node_id < length (graph st) → I st →
    walk_fields skip_fn node_id fields args st = Ok r → I r.2.
Proof.
  induction 1 as [|[name value] fields Hx _ IH]; intros node_id args st r Hwf Hid HI.
  - intros [= <-]. exact HI.
  - rewrite walk_fields_cons. simpl in Hx.
    destruct (skip_fn name value); [apply IH; assumption|].
    assert (Hcall : ∀ st1,
      walk_node skip_fn (Some node_id) value ("." +:+ name) st = Ok st1 →
      wf st1 ∧ node_id < length (graph st1) ∧ I st1).
    { intros st1 Hrun1.
      destruct (walk_node_run _ _ _ _ _ _ Hwf (Hid : parent_ok (Some node_id) st) Hrun1)
        as (Hwf1 & Hlen1 & _).
      split; [exact Hwf1|]. split; [lia|].
      apply (Hx (Some node_id) ("." +:+ name) st st1); assumption. }
    destruct value as [l|ys|cls fs].
    + apply IH; assumption.
    + intros (st1 & Hrun1 & Hrun2)%bind_Ok_inv.
      destruct (Hcall st1 Hrun1) as (Hwf1 & Hid1 & HI1).
      apply (IH node_id args st1 r); assumption.
    + intros (st1 & Hrun1 & Hrun2)%bind_Ok_inv.
      destruct (Hcall st1 Hrun1) as (Hwf1 & Hid1 & HI1).
      apply (IH node_id args st1 r); assumption.
Qed.

Lemma walk_node_preserves node : preserves skip_fn I node.
Proof.
  induction node as [l|xs IH|cls fields IH] using pyobj_ind;
    intros parent_id edge_label st st' Hwf Hp HI;
    rewrite walk_node_eq; intros (st1 & Hlink & Hrun)%bind_Ok_inv;
    pose proof (I_link _ _ _ _ Hwf Hp HI Hlink) as HI1;
    destruct (link_inv _ _ _ _ Hwf Hp Hlink) as (Hwf1 & Hlen1 & _).
  - injection Hrun as <-. exact HI1.
  - eapply (walk_items_preserves xs IH); [| | |exact Hrun].
    + apply wf_set_node_label; [exact Hwf1 | lia].
    + simpl. lia.
    + apply I_label, HI1.
  - apply bind_Ok_inv in Hrun as (r & Hrun & [= <-]). apply I_label.
    eapply (walk_fields_preserves fields IH); [| | |exact Hrun]; [exact Hwf1 | lia | exact HI1].
Qed.
End walk_preserves.

(** ** The graph and the edge labels agree *)

Lemma children_of_single k p c :
  children_of k [(p, c)] = if decide (p = k) then [c] else [].
Proof.
  unfold children_of. destruct (decide (p = k)) as [Heq|Hne].
  - rewrite filter_cons_True by exact Heq. reflexivity.
  - rewrite filter_cons_False by exact Hne. reflexivity.
Qed.

Lemma edge_keys_fresh st p :
  edge_keys_ok st → (p, length (graph st)) ∉ dict_keys (edge_labels st).
Proof.
  unfold edge_keys_ok. rewrite Forall_forall. intros Hkeys Hin.
  specialize (Hkeys _ Hin). simpl in Hkeys. lia.
Qed.

Lemma graph_inv_link parent_id edge_label st st1 :
  wf st → parent_ok parent_id st →
  edge_keys_ok st ∧ adjacency_ok st ∧ edges (graph st) ≡ₚ dict_keys (edge_labels st) →
  link parent_id (length (graph st)) edge_label (alloc st) = Ok st1 →
  edge_keys_ok st1 ∧ adjacency_ok st1 ∧ edges (graph st1) ≡ₚ dict_keys (edge_labels st1).
Proof.
  intros Hwf Hp (Hkeys & Hadj & Hperm) Hlink.
  destruct (link_inv _ _ _ _ Hwf Hp Hlink) as (Hwf1 & Hlen1 & _ & Hform).
  set (n := length (graph st)) in *.
  assert (Hweak : Forall (λ e : nat * nat, e.1 < e.2 < S n) (dict_keys (edge_labels st))).
  { eapply Forall_impl; [exact Hkeys|]. simpl. fold n. lia. }
  assert (Hnone : dict_get n (graph st) = None) by (apply dict_get_None, wf_fresh, Hwf).
  assert (Hleaf : children_of n (dict_keys (edge_labels st)) = []).
  { apply children_of_none. eapply Forall_impl; [exact Hkeys|]. simpl. fold n. lia. }
  assert (Hold : ∀ k, k < S n →
    dict_get k (graph st ++ [(n, [])]) = Some (children_of k (dict_keys (edge_labels st)))).
  { intros k Hk. rewrite dict_get_app. destruct (decide (k = n)) as [->|Hne].
    - rewrite Hnone, Hleaf. simpl. destruct (decide (n = n)); congruence.
    - rewrite (Hadj k) by (fold n; lia). reflexivity. }
  destruct parent_id as [p|].
  - simpl in Hp. fold n in Hp. destruct Hform as (l & Hl & Hg1 & Hel1).
    pose proof (edge_keys_fresh st p Hkeys) as Hfresh. fold n in Hfresh.
    rewrite (dict_set_fresh _ _ _ Hfresh) in Hel1.
    assert (Hk1 : dict_keys (edge_labels st1) = dict_keys (edge_labels st) ++ [(p, n)]).
    { rewrite Hel1. unfold dict_keys. rewrite fmap_app. reflexivity. }
    assert (Hlp : l = children_of p (dict_keys (edge_labels st))).
    { rewrite (Hadj p Hp) in Hl. congruence. }
    split; [|split].
    + unfold edge_keys_ok. rewrite Hlen1, Hk1. apply Forall_app. split; [exact Hweak|].
      repeat constructor; simpl; lia.
    + intros k Hk. rewrite Hlen1 in Hk. rewrite Hg1, Hk1, dict_get_set.
      rewrite children_of_app, children_of_single.
      destruct (decide (p = k)) as [<-|Hne].
      * rewrite Hlp. reflexivity.
      * rewrite (Hold k Hk), app_nil_r. reflexivity.
    + rewrite Hg1, Hk1.
      rewrite edges_set_append by (apply dict_get_app_l, Hl).
      rewrite edges_app. simpl. rewrite app_nil_r, Hperm.
      apply Permutation_cons_append.
  - destruct Hform as (Hg1 & Hel1). split; [|split].
    + unfold edge_keys_ok. rewrite Hlen1, Hel1. exact Hweak.
    + intros k Hk. rewrite Hlen1 in Hk. rewrite Hg1, Hel1. apply Hold, Hk.
    + rewrite Hg1, Hel1, edges_app. simpl. rewrite app_nil_r. exact Hperm.
Qed.

Lemma graph_inv_root skip_fn root st :
  walk_node skip_fn None root "" empty_state = Ok st →
  edge_keys_ok st ∧ adjacency_ok st ∧ edges (graph st) ≡ₚ dict_keys (edge_labels st).
Proof.
  apply (walk_node_preserves skip_fn
           (λ st, edge_keys_ok st ∧ adjacency_ok st ∧
                  edges (graph st) ≡ₚ dict_keys (edge_labels st))
           graph_inv_link (λ n s st H, H) root None "" empty_state st wf_empty I).
  split; [constructor|]. split; [intros k Hk; simpl in Hk; lia | reflexivity].
Qed.

(** X8: after a run, each adjacency list of [graph] holds exactly the
    children for which [edge_labels] has a key with that parent, in the
    order in which these keys were added; so [edge_labels] has one entry
    for each edge of the graph and no other. *)
Theorem adjacency_matches_edge_labels skip_fn root :
  ∃ st, walk_node skip_fn None root "" empty_state = Ok st ∧
    (∀ k, k < length (graph st) →
          dict_get k (graph st) = Some (children_of k (dict_keys (edge_labels st)))) ∧
    edges (graph st) ≡ₚ dict_keys (edge_labels st).
Proof.
  destruct (walk_root_spec skip_fn root) as (st & Hrun & _).
  exists st. split; [exact Hrun|].
  destruct (graph_inv_root skip_fn root st Hrun) as (_ & Hadj & Hperm).
  split; [exact Hadj | exact Hperm].
Qed.

Lemma edges_length (g : graph_t) : length (edges g) = length (children g).
Proof.
  unfold children. induction g as [|[src l] g IH]; [reflexivity|].
  rewrite edges_cons, fmap_cons. simpl.
  rewrite !length_app, length_map, IH. reflexivity.
Qed.

(** X9: the graph of a run is laid out forward: every edge goes from an id
    to a larger id of the graph, so there is no cycle, and there is one
    edge less than there are nodes. *)
Theorem edges_go_forward skip_fn root :
  ∃ st, walk_node skip_fn None root "" empty_state = Ok st ∧
    Forall (λ e, e.1 < e.2 < length (graph st)) (edges (graph st)) ∧
    length (edges (graph st)) = length (graph st) - 1.
Proof.
  destruct (walk_root_spec skip_fn root) as (st & Hrun & _ & Hlen & _ & _ & Hch).
  exists st. split; [exact Hrun|].
  destruct (graph_inv_root skip_fn root st Hrun) as (Hkeys & _ & Hperm).
  split.
  - rewrite Hperm. exact Hkeys.
  - rewrite edges_length, Hch, Hlen. simpl.
    destruct (targets_head skip_fn root) as [ts ->]. simpl.
    rewrite length_seq. lia.
Qed.

(** ** The edge labels as a function of the tree *)

Lemma edge_log_eq skip_fn n node :
  edge_log skip_fn n node =
  match node with
  | Leaf _ => []
  | PyList xs => items_log skip_fn n 0 (S n) xs
  | PyAST _ fields => fields_log skip_fn n (S n) fields
  end.
Proof. destruct node; reflexivity. Qed.

Lemma edge_keys_link parent_id edge_label st st1 :
  wf st → parent_ok parent_id st → edge_keys_ok st →
  link parent_id (length (graph st)) edge_label (alloc st) = Ok st1 →
  edge_keys_ok st1.
Proof.
  intros Hwf Hp Hkeys Hlink.
  destruct (link_inv _ _ _ _ Hwf Hp Hlink) as (_ & Hlen1 & _ & Hform).
  assert (Hweak : Forall (λ e : nat * nat, e.1 < e.2 < S (length (graph st)))
                         (dict_keys (edge_labels st))).
  { eapply Forall_impl; [exact Hkeys|]. simpl. lia. }
  unfold edge_keys_ok. rewrite Hlen1. destruct parent_id as [p|].
  - destruct Hform as (l & _ & _ & ->). simpl in Hp.
    apply dict_keys_set_Forall; [exact Hweak | simpl; lia].
  - destruct Hform as (_ & ->). exact Hweak.
Qed.

Lemma edge_keys_preserved skip_fn node : preserves skip_fn edge_keys_ok node.
Proof.
  apply (walk_node_preserves skip_fn edge_keys_ok edge_keys_link (λ n s st H, H)).
Qed.

Lemma link_logs parent_id edge_label st st1 :
  wf st → parent_ok parent_id st → edge_keys_ok st →
  link parent_id (length (graph st)) edge_label (alloc st) = Ok st1 →
  edge_labels st1
  = edge_labels st ++ link_entry parent_id (length (graph st)) edge_label.
Proof.
  intros Hwf Hp Hkeys Hlink.
  destruct (link_inv _ _ _ _ Hwf Hp Hlink) as (_ & _ & _ & Hform).
  destruct parent_id as [p|].
  - destruct Hform as (l & _ & _ & ->). simpl.
    apply dict_set_fresh, edge_keys_fresh, Hkeys.
  - destruct Hform as (_ & ->). simpl. rewrite app_nil_r. reflexivity.
Qed.

Section edge_log_facts.
Variable skip_fn : string → pyobj → bool.

Lemma walk_items_logs xs :
  Forall (logs_edges skip_fn) xs →
  ∀ node_id i st st',
    wf st → node_id < length (graph st) → edge_keys_ok st →
    walk_items skip_fn node_id i xs st = Ok st' →
    edge_labels st'
    = edge_labels st ++ items_log skip_fn node_id i (length (graph st)) xs.
Proof.
  induction 1 as [|x xs Hx _ IH]; intros node_id i st st' Hwf Hid Hkeys.
  - intros [= <-]. simpl. rewrite app_nil_r. reflexivity.
  - rewrite walk_items_cons. intros (st1 & Hrun1 & Hrun2)%bind_Ok_inv.
    pose proof (Hid : parent_ok (Some node_id) st) as Hp.
    destruct (walk_node_run _ _ _ _ _ _ Hwf Hp Hrun1) as (Hwf1 & Hlen1 & _).
    pose proof (edge_keys_preserved skip_fn x _ _ _ _ Hwf Hp Hkeys Hrun1) as Hkeys1.
    assert (Hid1 : node_id < length (graph st1)) by lia.
    rewrite (IH node_id (S i) st1 st' Hwf1 Hid1 Hkeys1 Hrun2).
    rewrite (Hx _ _ _ _ Hwf Hp Hkeys Hrun1), Hlen1. simpl.
    rewrite <-!(assoc_L (++)). reflexivity.
Qed.

Lemma walk_fields_logs fields :
  Forall (λ f, logs_edges skip_fn f.2) fields →
  ∀ node_id args st r,
    wf st → node_id < length (graph st) → edge_keys_ok st →
    walk_fields skip_fn node_id fields args st = Ok r →
    edge_labels r.2
    = edge_labels st ++ fields_log skip_fn node_id (length (graph st)) fields.
Proof.
  induction 1 as [|[name value] fields Hx _ IH]; intros node_id args st r Hwf Hid Hkeys.
  - intros [= <-]. simpl. rewrite app_nil_r. reflexivity.
  - rewrite walk_fields_cons. simpl in Hx. simpl fields_log.
    destruct (skip_fn name value); [apply IH; assumption|].
    pose proof (Hid : parent_ok (Some node_id) st) as Hp.
    assert (Hcall : ∀ st1,
      walk_node skip_fn (Some node_id) value ("." +:+ name) st = Ok st1 →
      ∀ r, walk_fields skip_fn node_id fields args st1 = Ok r →
      edge_labels r.2
      = edge_labels st
          ++ ((node_id, length (graph st)), "." +:+ name)
          :: edge_log skip_fn (length (graph st)) value
          ++ fields_log skip_fn node_id
               (length (graph st) + length (targets skip_fn value)) fields).
    { intros st1 Hrun1 r' Hrun2.
      destruct (walk_node_run _ _ _ _ _ _ Hwf Hp Hrun1) as (Hwf1 & Hlen1 & _).
      pose proof (edge_keys_preserved skip_fn value _ _ _ _ Hwf Hp Hkeys Hrun1) as Hkeys1.
      assert (Hid1 : node_id < length (graph st1)) by lia.
      rewrite (IH node_id args st1 r' Hwf1 Hid1 Hkeys1 Hrun2).
      rewrite (Hx _ _ _ _ Hwf Hp Hkeys Hrun1), Hlen1. simpl.
      rewrite <-!(assoc_L (++)). reflexivity. }
    destruct value as [l|ys|cls fs].
    + apply IH; assumption.
    + intros (st1 & Hrun1 & Hrun2)%bind_Ok_inv. apply (Hcall st1 Hrun1 r Hrun2).
    + intros (st1 & Hrun1 & Hrun2)%bind_Ok_inv. apply (Hcall st1 Hrun1 r Hrun2).
Qed.

Lemma walk_node_logs node : logs_edges skip_fn node.
Proof.
  induction node as [l|xs IH|cls fields IH] using pyobj_ind;
    intros parent_id edge_label st st' Hwf Hp Hkeys;
    rewrite walk_node_eq, edge_log_eq; intros (st1 & Hlink & Hrun)%bind_Ok_inv;
    pose proof (link_logs _ _ _ _ Hwf Hp Hkeys Hlink) as Hel1;
    pose proof (edge_keys_link _ _ _ _ Hwf Hp Hkeys Hlink) as Hkeys1;
    destruct (link_inv _ _ _ _ Hwf Hp Hlink) as (Hwf1 & Hlen1 & _);
    assert (Hid1 : length (graph st) < length (graph st1)) by lia.
  - injection Hrun as <-. rewrite app_nil_r. exact Hel1.
  - rewrite (walk_items_logs xs IH _ _ _ _
               (wf_set_node_label _ _ "list" Hwf1 Hid1) Hid1 Hkeys1 Hrun).
    simpl. rewrite Hel1, Hlen1, <-(assoc_L (++)). reflexivity.
  - apply bind_Ok_inv in Hrun as (r & Hrun & [= <-]). simpl.
    rewrite (walk_fields_logs fields IH _ _ _ _ Hwf1 Hid1 Hkeys1 Hrun).
    rewrite Hel1, Hlen1, <-(assoc_L (++)). reflexivity.
Qed.
End edge_log_facts.

(** X10: the edge labels of a run are, in the order they were recorded,
    those of [edge_log]: below a node with id [n], each kept field holding
    a node or a list gives the entry [(n, c)] with label [.name] and each
    item of a list the entry [(n, c)] with label [[i]], where [c] is the
    next free id, followed by the entries recorded below that child. *)
Theorem edge_labels_are_edge_log skip_fn root :
  ∃ st, walk_node skip_fn None root "" empty_state = Ok st ∧
    edge_labels st = edge_log skip_fn 0 root.
Proof.
  destruct (walk_root_spec skip_fn root) as (st & Hrun & _).
  exists st. split; [exact Hrun|].
  apply (walk_node_logs skip_fn root None "" empty_state st wf_empty I).
  - constructor.
  - exact Hrun.
Qed.

(** ** Trees on which the serializer cannot raise *)

Lemma targets_composite skip_fn node :
  lists_hold_no_leaf node = true → is_composite node = true →
  Forall (λ v, is_composite v = true) (targets skip_fn node).
Proof.
  induction node as [l|xs IH|cls fields IH] using pyobj_ind; intros Hlists Hcomp.
  - discriminate Hcomp.
  - simpl. constructor; [reflexivity|]. simpl in Hlists. clear Hcomp.
    induction IH as [|x xs Hx _ IHxs]; simpl; [constructor|].
    simpl in Hlists. apply andb_true_iff in Hlists as [Hhead Htail].
    apply andb_true_iff in Hhead as [Hc Hl].
    apply Forall_app. split; [apply Hx; assumption | apply IHxs, Htail].
  - simpl. constructor; [reflexivity|]. simpl in Hlists. clear Hcomp.
    induction IH as [|[name value] fields Hx _ IHfs]; simpl; [constructor|].
    simpl in Hlists, Hx. apply andb_true_iff in Hlists as [Hhead Htail].
    apply Forall_app. split; [|apply IHfs, Htail].
    destruct (skip_fn name value); [constructor|].
    destruct value as [l|ys|cls' fs]; [constructor | apply Hx.. ]; auto.
Qed.

(** X11: on a tree whose root is a node or a list and in which no list
    holds a leaf, whenever the walk completes, [graph_to_dot] returns a
    text on the state it has built, whatever the skip predicate and the
    style. *)
Theorem leafless_lists_print root :
  is_composite root = true → lists_hold_no_leaf root = true →
  ∀ skip_fn style st,
    walk_node skip_fn None root "" empty_state = Ok st →
    ∃ out, graph_to_dot (graph st) (node_labels st) (edge_labels st) style = Ok out.
Proof.
  intros Hcomp Hlists skip_fn style st Hrun.
  apply (printer_ok skip_fn root style st Hrun), targets_composite; assumption.
Qed.

Lemma leafless_lists_print_witness :
  ∃ out, graph_to_dot (graph two_plus_two_state) (node_labels two_plus_two_state)
                      (edge_labels two_plus_two_state) "" = Ok out.
Proof.
  apply (leafless_lists_print two_plus_two eq_refl eq_refl skip "" two_plus_two_state).
  vm_compute. reflexivity.
Defined.

(** ** What the printer reads *)

Lemma mapM_ext {A B} (f g : A → result B) (l : list A) :
  (∀ x, x ∈ l → f x = g x) → mapM f l = mapM g l.
Proof.
  induction l as [|x l IH]; intros Hfg; simpl; [reflexivity|].
  rewrite (Hfg x) by apply list_elem_of_here.
  rewrite IH; [reflexivity|]. intros y Hy. apply Hfg, list_elem_of_further, Hy.
Qed.

(** X12: [graph_to_dot] reads [node_labels] only at the keys of [graph] and
    [edge_labels] only at the edges of [graph]: label dictionaries that
    agree there give the same result, text or [KeyError]. *)
Theorem graph_to_dot_reads_graph_entries (g : graph_t) (nl nl' : node_labels_t)
    (el el' : edge_labels_t) (style : string) :
  (∀ n, n ∈ dict_keys g → dict_get n nl = dict_get n nl') →
  (∀ e, e ∈ edges g → dict_get e el = dict_get e el') →
  graph_to_dot g nl el style = graph_to_dot g nl' el' style.
Proof.
  intros Hnl Hel. unfold graph_to_dot.
  rewrite (mapM_ext (node_line nl) (node_line nl')).
  - rewrite (mapM_ext (edge_line el) (edge_line el')); [reflexivity|].
    intros e He. unfold edge_line, getitem. rewrite (Hel e He). reflexivity.
  - intros n Hn. unfold node_line, getitem. rewrite (Hnl n Hn). reflexivity.
Qed.

Lemma graph_to_dot_reads_graph_entries_witness :
  graph_to_dot [(0, [1]); (1, [])] [(0, "a"); (1, "b")] [((0, 1), ".x")] ""
  = graph_to_dot [(0, [1]); (1, [])] [(1, "b"); (7, "c"); (0, "a")]
      [((3, 4), ".y"); ((0, 1), ".x")] "".
Proof.
  apply (graph_to_dot_reads_graph_entries [(0, [1]); (1, [])]).
  - intros n Hn. repeat (apply elem_of_cons in Hn as [->|Hn]; [reflexivity|]).
    apply elem_of_nil in Hn as [].
  - intros e He. repeat (apply elem_of_cons in He as [->|He]; [reflexivity|]).
    apply elem_of_nil in He as [].
Defined.

(** ** Skipping more *)

Lemma flat_map_sublist {A B} (f g : A → list B) (l : list A) :
  Forall (λ x, sublist (f x) (g x)) l → sublist (flat_map f l) (flat_map g l).
Proof.
  induction 1 as [|x l Hx _ IH]; simpl; [constructor | apply sublist_app; assumption].
Qed.

Lemma targets_sublist skip1 skip2 node :
  (∀ name value, skip1 name value = true → skip2 name value = true) →
  sublist (targets skip2 node) (targets skip1 node).
Proof.
  intros Hskip. induction node as [l|xs IH|cls fields IH] using pyobj_ind; simpl.
  - reflexivity.
  - apply sublist_skip, flat_map_sublist, IH.
  - apply sublist_skip, flat_map_sublist.
    eapply Forall_impl; [exact IH|]. intros [name value] Hx. simpl in Hx.
    destruct (skip1 name value) eqn:H1.
    + rewrite (Hskip _ _ H1). constructor.
    + destruct (skip2 name value); [apply sublist_nil_l|].
      destruct value; [constructor | exact Hx..].
Qed.

(** X13: a predicate that skips at least the fields another one skips makes
    the walk visit a sublist of the values the other one visits, in the
    same order, and so gives a graph with at most as many nodes. *)
Theorem skipping_more_visits_less skip1 skip2 root :
  (∀ name value, skip1 name value = true → skip2 name value = true) →
  sublist (targets skip2 root) (targets skip1 root) ∧
  ∃ st1 st2,
    walk_node skip1 None root "" empty_state = Ok st1 ∧
    walk_node skip2 None root "" empty_state = Ok st2 ∧
    length (graph st2) ≤ length (graph st1).
Proof.
  intros Hskip. pose proof (targets_sublist skip1 skip2 root Hskip) as Hsub.
  split; [exact Hsub|].
  destruct (walk_root_spec skip1 root) as (st1 & Hrun1 & _ & Hlen1 & _).
  destruct (walk_root_spec skip2 root) as (st2 & Hrun2 & _ & Hlen2 & _).
  exists st1, st2. split; [exact Hrun1|]. split; [exact Hrun2|].
  rewrite Hlen1, Hlen2. simpl. apply sublist_length in Hsub. lia.
Qed.

Lemma skipping_more_visits_less_witness :
  sublist (targets skip two_plus_two) (targets no_skip two_plus_two) ∧
  ∃ st1 st2,
    walk_node no_skip None two_plus_two "" empty_state = Ok st1 ∧
    walk_node skip None two_plus_two "" empty_state = Ok st2 ∧
    length (graph st2) ≤ length (graph st1).
Proof.
  apply (skipping_more_visits_less no_skip skip two_plus_two).
  intros name value H. discriminate H.
Defined.

(** ** The output as a function of the tree *)

Lemma StronglySorted_edge_lt_NoDup (l : list (nat * nat)) :
  StronglySorted edge_lt l → NoDup l.
Proof.
  induction 1 as [|e l _ IH He]; constructor; [|exact IH].
  intros Hin. rewrite Forall_forall in He. specialize (He e Hin).
  unfold edge_lt in He. lia.
Qed.

Lemma dict_get_elem {K V} `{EqDecision K} (d : dict K V) k v :
  NoDup (dict_keys d) → (k, v) ∈ d → dict_get k d = Some v.
Proof.
  unfold dict_keys. induction d as [|[k0 v0] d IH]; intros Hnd Hin.
  - apply elem_of_nil in Hin as [].
  - rewrite fmap_cons in Hnd. apply NoDup_cons in Hnd as [Hk0 Hnd]. simpl.
    apply elem_of_cons in Hin as [[= -> ->]|Hin].
    + destruct (decide (k0 = k0)); congruence.
    + destruct (decide (k0 = k)) as [->|Hne]; [|apply IH; assumption].
      destruct Hk0. apply list_elem_of_fmap. exists (k, v). split; [reflexivity | exact Hin].
Qed.

Lemma graph_entries (g : graph_t) (f : nat → list nat) :
  NoDup (dict_keys g) →
  (∀ k, k ∈ dict_keys g → dict_get k g = Some (f k)) →
  g = (λ k, (k, f k)) <$> dict_keys g.
Proof.
  unfold dict_keys. induction g as [|[k0 l0] g IH]; intros Hnd Hget; [reflexivity|].
  rewrite fmap_cons in Hnd. apply NoDup_cons in Hnd as [Hk0 Hnd].
  rewrite !fmap_cons. simpl. f_equal.
  - specialize (Hget k0 (list_elem_of_here _ _)). simpl in Hget.
    destruct (decide (k0 = k0)); congruence.
  - apply IH; [exact Hnd|]. intros k Hk.
    specialize (Hget k (list_elem_of_further _ _ _ Hk)). simpl in Hget.
    destruct (decide (k0 = k)) as [->|_]; [contradiction | exact Hget].
Qed.

Lemma edges_fmap (f : nat → list nat) (ks : list nat) :
  edges ((λ k, (k, f k)) <$> ks) = flat_map (λ k, pair k <$> f k) ks.
Proof.
  induction ks as [|k ks IH]; [reflexivity|].
  rewrite fmap_cons, edges_cons, IH. reflexivity.
Qed.

Lemma mapM_cons {A B} (f : A → result B) x l :
  mapM f (x :: l) = (y ← f x; k ← mapM f l; mret (y :: k)).
Proof. reflexivity. Qed.

Lemma mapM_app_Ok {A B} (f : A → result B) l1 l2 r1 r2 :
  mapM f l1 = Ok r1 → mapM f l2 = Ok r2 → mapM f (l1 ++ l2) = Ok (r1 ++ r2).
Proof.
  revert r1. induction l1 as [|x l1 IH]; intros r1; simpl.
  - intros [= <-] H2. exact H2.
  - intros (y & Hy & (ys & Hys & [= <-])%bind_Ok_inv)%bind_Ok_inv H2.
    rewrite Hy. simpl. rewrite (IH ys Hys H2). reflexivity.
Qed.

Lemma mapM_flat_map_Ok {A B C} (f : A → result B) (h : C → list A)
    (h' : C → list B) (ks : list C) :
  (∀ k, k ∈ ks → mapM f (h k) = Ok (h' k)) →
  mapM f (flat_map h ks) = Ok (flat_map h' ks).
Proof.
  induction ks as [|k ks IH]; intros Hk; simpl; [reflexivity|].
  apply mapM_app_Ok; [apply Hk, list_elem_of_here|].
  apply IH. intros k' Hk'. apply Hk, list_elem_of_further, Hk'.
Qed.

Lemma children_of_entries k (log : edge_labels_t) :
  pair k <$> children_of k (dict_keys log)
  = (filter (λ entry : (nat * nat) * string, entry.1.1 = k) log).*1.
Proof.
  unfold children_of, dict_keys. induction log as [|[[a b] lbl] log IH]; [reflexivity|].
  rewrite fmap_cons. simpl fst. destruct (decide (a = k)) as [->|Hne].
  - rewrite !filter_cons_True by reflexivity. rewrite !fmap_cons, IH. reflexivity.
  - rewrite !filter_cons_False by exact Hne. exact IH.
Qed.

Lemma mapM_edge_lines (log : edge_labels_t) (entries : list ((nat * nat) * string)) :
  NoDup (dict_keys log) → (∀ entry, entry ∈ entries → entry ∈ log) →
  mapM (edge_line log) entries.*1 = Ok (edge_text <$> entries).
Proof.
  intros Hnd. induction entries as [|[e lbl] entries IH]; intros Hin; [reflexivity|].
  rewrite !fmap_cons, mapM_cons.
  assert (Hline : edge_line log (e, lbl).1 = Ok (edge_text (e, lbl))).
  { unfold edge_line, getitem. simpl.
    rewrite (dict_get_elem log e lbl Hnd) by apply Hin, list_elem_of_here.
    reflexivity. }
  rewrite Hline, IH by (intros entry He; apply Hin, list_elem_of_further, He).
  reflexivity.
Qed.

Lemma mapM_node_lines skip_fn (nl : node_labels_t) (ts : list pyobj) (n : nat) :
  (∀ i v, ts !! i = Some v →
          ∃ s, label_of skip_fn v = Some s ∧ dict_get (n + i) nl = Some s) →
  mapM (node_line nl) (seq n (length ts))
  = Ok (zip_with (node_text skip_fn) (seq n (length ts)) ts).
Proof.
  revert n. induction ts as [|v ts IH]; intros n Hlab; [reflexivity|].
  change (seq n (length (v :: ts))) with (n :: seq (S n) (length ts)).
  rewrite mapM_cons. destruct (Hlab 0 v eq_refl) as (s & Hs & Hget).
  rewrite Nat.add_0_r in Hget.
  assert (Hline : node_line nl n = Ok (node_text skip_fn n v)).
  { unfold node_line, getitem, node_text. rewrite Hget, Hs. reflexivity. }
  rewrite Hline, (IH (S n)); [reflexivity|].
  intros i v' Hi. destruct (Hlab (S i) v' Hi) as (s' & Hs' & Hget').
  exists s'. split; [exact Hs'|]. rewrite <-Hget'. f_equal. lia.
Qed.

Lemma forallb_false {A} (f : A → bool) (l : list A) :
  forallb f l = false → ∃ x, x ∈ l ∧ f x = false.
Proof.
  induction l as [|x l IH]; simpl; [discriminate|].
  destruct (f x) eqn:Hx; simpl.
  - intros (y & Hy & Hfy)%IH. exists y. split; [apply list_elem_of_further, Hy | exact Hfy].
  - intros _. exists x. split; [apply list_elem_of_here | exact Hx].
Qed.

(** X14: whenever the walk of [_to_dot_from_ast] completes, what
    [graph_to_dot] gives on the state it has built is [dot_of_tree], a
    function of the tree that uses no state: [KeyError] if some visited
    value is a leaf; otherwise the header with the style block, one line
    [i [label="..."]] per visited value in visit order with its escaped
    label, then for each id in increasing order the lines
    [src -> dst [label="..."]] of the edges that leave it, in the order of
    the edge log, then the closing brace. *)
Theorem printed_state_is_dot_of_tree skip_fn root style st :
  walk_node skip_fn None root "" empty_state = Ok st →
  graph_to_dot (graph st) (node_labels st) (edge_labels st) style
  = dot_of_tree skip_fn root style.
Proof.
  intros Hrun.
  unfold dot_of_tree. destruct (forallb is_composite (targets skip_fn root)) eqn:Hcomp.
  - destruct (walk_root_run skip_fn root st Hrun) as (Hwf & Hlen & _ & Hlab & _).
    simpl in Hlen, Hlab.
    destruct (graph_inv_root skip_fn root st Hrun) as (Hkeys & Hadj & Hperm).
    assert (Hlog : edge_labels st = edge_log skip_fn 0 root).
    { apply (walk_node_logs skip_fn root None "" empty_state st wf_empty I);
        [constructor | exact Hrun]. }
    assert (Hsorted : StronglySorted edge_lt (edges (graph st))).
    { apply edges_sorted.
      - rewrite (wf_keys _ Hwf). apply StronglySorted_seq.
      - eapply Forall_impl; [apply (wf_sorted _ Hwf)|]. simpl. intros kv [Hs _]. exact Hs. }
    assert (Hnd : NoDup (dict_keys (edge_labels st))).
    { rewrite <-Hperm. apply StronglySorted_edge_lt_NoDup, Hsorted. }
    assert (Hgraph : graph st
      = (λ k, (k, children_of k (dict_keys (edge_labels st))))
          <$> seq 0 (length (targets skip_fn root))).
    { rewrite <-Hlen, <-(wf_keys _ Hwf). apply graph_entries.
      - rewrite (wf_keys _ Hwf). apply NoDup_seq.
      - intros k Hk. apply Hadj. rewrite (wf_keys _ Hwf), elem_of_seq in Hk. lia. }
    unfold graph_to_dot.
    rewrite (wf_keys _ Hwf), Hlen.
    rewrite (mapM_node_lines skip_fn).
    + simpl. rewrite Hgraph at 1. rewrite edges_fmap.
      rewrite (mapM_flat_map_Ok _ _
        (λ k, edge_text <$> filter (λ entry : (nat * nat) * string, entry.1.1 = k)
                              (edge_labels st))).
      * rewrite Hlog. reflexivity.
      * intros k _. rewrite children_of_entries. apply mapM_edge_lines; [exact Hnd|].
        intros entry He. apply list_elem_of_filter in He as [_ He]. exact He.
    + intros i v Hi. rewrite forallb_forall in Hcomp.
      destruct (label_of_composite skip_fn v) as [s Hs].
      { apply Hcomp, list_elem_of_In, (list_elem_of_lookup_2 _ i), Hi. }
      exists s. split; [exact Hs|]. rewrite <-Hs. apply (Hlab i v Hi).
  - apply forallb_false in Hcomp as (v & Hin & Hv).
    apply (printer_raises skip_fn root style st v Hrun Hin Hv).
Qed.

Lemma printed_state_is_dot_of_tree_witness :
  graph_to_dot (graph two_plus_two_state) (node_labels two_plus_two_state)
               (edge_labels two_plus_two_state) ""
  = dot_of_tree skip two_plus_two "".
Proof.
  apply (printed_state_is_dot_of_tree skip two_plus_two "" two_plus_two_state).
  vm_compute. reflexivity.
Defined.
